(** * JULEA: semantics descriptors and the store iterator

    A shallow embedding of [lib/jsemantics.c] and [lib/jstore-iterator.c].
    C objects live in a heap of slices indexed by location, a pointer is a
    location or [NULL], and each C function is a computation in a small
    monad: state and undefined behaviour for the descriptor, state and
    calls to the collaborators for the iterator. *)

From Stdlib Require Import ZArith String Ascii List Lia.
From stdpp Require Import base option list gmap strings.

Local Open Scope Z_scope.

(** ** The GLib and libc vocabulary the two files use *)

Module GLib.

Definition gint : Type := Z.
Definition gboolean : Type := bool.
Definition TRUE : gboolean := true.
Definition FALSE : gboolean := false.

(** A [gint] is 32 bits wide, two's complement. *)
Definition G_MININT : Z := - 2 ^ 31.
Definition G_MAXINT : Z := 2 ^ 31 - 1.
Definition wrap_gint (z : Z) : gint := (z + 2 ^ 31) mod 2 ^ 32 - 2 ^ 31.

(** Objects are addressed by location; a pointer is a location or [NULL]. *)
Definition loc : Type := positive.
Definition pointer : Type := option loc.
Definition NULL : pointer := None.

(** What GLib writes to its log, with the text of the failed check. *)
Inductive GLogMessage : Type :=
| g_critical (check : string)
| g_warning (check : string).

(** [strchr]: the suffix of [s] that starts at the first [c]. *)
Fixpoint strchr (s : string) (c : ascii) : option string :=
  match s with
  | EmptyString => if Ascii.eqb c Ascii.zero then Some EmptyString else None
  | String a r => if Ascii.eqb a c then Some s else strchr r c
  end.

(** [p + 1] for a pointer [p] into a string. *)
Definition next_char (s : string) : string :=
  match s with
  | EmptyString => EmptyString
  | String _ r => r
  end.

(** [strcmp] by unsigned bytes; only the sign of the result is specified. *)
Fixpoint strcmp (s1 s2 : string) : gint :=
  match s1, s2 with
  | EmptyString, EmptyString => 0
  | EmptyString, String _ _ => -1
  | String _ _, EmptyString => 1
  | String a r1, String b r2 =>
      match N.compare (N_of_ascii a) (N_of_ascii b) with
      | Eq => strcmp r1 r2
      | Lt => -1
      | Gt => 1
      end
  end.

(** [g_strcmp0] is [strcmp] that accepts [NULL], which sorts first. *)
Definition g_strcmp0 (str1 str2 : option string) : gint :=
  match str1, str2 with
  | None, None => 0
  | None, Some _ => -1
  | Some _, None => 1
  | Some a, Some b => strcmp a b
  end.

Fixpoint g_str_has_prefix (str prefix : string) {struct prefix} : gboolean :=
  match prefix, str with
  | EmptyString, _ => TRUE
  | String _ _, EmptyString => FALSE
  | String p ps, String c cs => if Ascii.eqb c p then g_str_has_prefix cs ps else FALSE
  end.

(** The pieces of [s] between occurrences of [d]; never empty. *)
Fixpoint pieces (d : ascii) (s : string) : list string :=
  match s with
  | EmptyString => [EmptyString]
  | String a r =>
      if Ascii.eqb a d then EmptyString :: pieces d r
      else match pieces d r with
           | t :: ts => String a t :: ts
           | [] => [String a EmptyString]
           end
  end.

(** [g_strsplit (s, d, 0)] for a one-character delimiter [d]: with
    [max_tokens] below 1 the string is split completely, and the empty
    string gives the empty vector. *)
Definition g_strsplit (s : string) (d : ascii) : list string :=
  match s with
  | EmptyString => []
  | String _ _ => pieces d s
  end.

Definition g_strv_length (v : list string) : nat := length v.

End GLib.

(** ** The semantics descriptor ([lib/jsemantics.c]) *)

Module JSemantics.
Import GLib.

(** Modelled from the spec: [jsemantics.h], which declares the enumerations
    [JSemanticsTemplate], [JSemanticsType] and one enumeration per dimension
    (Atomicity, Concurrency, Consistency, Persistency, Safety, Security), is
    not among the sources. Its enumerators are taken as parameters: any
    integers such that the labels of each [switch] are pairwise distinct, as
    the C compiler demands, and the values of each closed enumeration are
    distinct. *)
Class JSemanticsHeader : Type := {
  J_SEMANTICS_TEMPLATE_DEFAULT : gint;
  J_SEMANTICS_TEMPLATE_POSIX : gint;
  J_SEMANTICS_TEMPLATE_CHECKPOINT : gint;

  J_SEMANTICS_ATOMICITY : gint;
  J_SEMANTICS_CONCURRENCY : gint;
  J_SEMANTICS_CONSISTENCY : gint;
  J_SEMANTICS_PERSISTENCY : gint;
  J_SEMANTICS_SAFETY : gint;
  J_SEMANTICS_SECURITY : gint;

  J_SEMANTICS_ATOMICITY_BATCH : gint;
  J_SEMANTICS_ATOMICITY_OPERATION : gint;
  J_SEMANTICS_ATOMICITY_NONE : gint;

  J_SEMANTICS_CONCURRENCY_OVERLAPPING : gint;
  J_SEMANTICS_CONCURRENCY_NON_OVERLAPPING : gint;
  J_SEMANTICS_CONCURRENCY_NONE : gint;

  J_SEMANTICS_CONSISTENCY_IMMEDIATE : gint;
  J_SEMANTICS_CONSISTENCY_EVENTUAL : gint;
  J_SEMANTICS_CONSISTENCY_NONE : gint;

  J_SEMANTICS_PERSISTENCY_IMMEDIATE : gint;
  J_SEMANTICS_PERSISTENCY_EVENTUAL : gint;
  J_SEMANTICS_PERSISTENCY_NONE : gint;

  J_SEMANTICS_SAFETY_STORAGE : gint;
  J_SEMANTICS_SAFETY_NETWORK : gint;
  J_SEMANTICS_SAFETY_NONE : gint;

  J_SEMANTICS_SECURITY_STRICT : gint;
  J_SEMANTICS_SECURITY_NONE : gint;

  template_labels : list gint :=
    [J_SEMANTICS_TEMPLATE_DEFAULT; J_SEMANTICS_TEMPLATE_POSIX;
     J_SEMANTICS_TEMPLATE_CHECKPOINT];
  type_labels : list gint :=
    [J_SEMANTICS_ATOMICITY; J_SEMANTICS_CONCURRENCY; J_SEMANTICS_CONSISTENCY;
     J_SEMANTICS_PERSISTENCY; J_SEMANTICS_SAFETY; J_SEMANTICS_SECURITY];

  template_labels_distinct : NoDup template_labels;
  type_labels_distinct : NoDup type_labels;
  atomicity_distinct :
    NoDup [J_SEMANTICS_ATOMICITY_BATCH; J_SEMANTICS_ATOMICITY_OPERATION;
           J_SEMANTICS_ATOMICITY_NONE];
  concurrency_distinct :
    NoDup [J_SEMANTICS_CONCURRENCY_OVERLAPPING;
           J_SEMANTICS_CONCURRENCY_NON_OVERLAPPING; J_SEMANTICS_CONCURRENCY_NONE];
  consistency_distinct :
    NoDup [J_SEMANTICS_CONSISTENCY_IMMEDIATE; J_SEMANTICS_CONSISTENCY_EVENTUAL;
           J_SEMANTICS_CONSISTENCY_NONE];
  persistency_distinct :
    NoDup [J_SEMANTICS_PERSISTENCY_IMMEDIATE; J_SEMANTICS_PERSISTENCY_EVENTUAL;
           J_SEMANTICS_PERSISTENCY_NONE];
  safety_distinct :
    NoDup [J_SEMANTICS_SAFETY_STORAGE; J_SEMANTICS_SAFETY_NETWORK;
           J_SEMANTICS_SAFETY_NONE];
  security_distinct :
    NoDup [J_SEMANTICS_SECURITY_STRICT; J_SEMANTICS_SECURITY_NONE]
}.

(** [struct JSemantics], fields in the order of the declaration. *)
Record JSemantics : Type := {
  atomicity : gint;
  consistency : gint;
  persistency : gint;
  concurrency : gint;
  safety : gint;
  security : gint;
  immutable : gboolean;
  ref_count : gint
}.

(** Assignment to one field. *)
Definition set_atomicity (v : gint) (o : JSemantics) : JSemantics :=
  {| atomicity := v; consistency := consistency o; persistency := persistency o;
     concurrency := concurrency o; safety := safety o; security := security o;
     immutable := immutable o; ref_count := ref_count o |}.
Definition set_consistency (v : gint) (o : JSemantics) : JSemantics :=
  {| atomicity := atomicity o; consistency := v; persistency := persistency o;
     concurrency := concurrency o; safety := safety o; security := security o;
     immutable := immutable o; ref_count := ref_count o |}.
Definition set_persistency (v : gint) (o : JSemantics) : JSemantics :=
  {| atomicity := atomicity o; consistency := consistency o; persistency := v;
     concurrency := concurrency o; safety := safety o; security := security o;
     immutable := immutable o; ref_count := ref_count o |}.
Definition set_concurrency (v : gint) (o : JSemantics) : JSemantics :=
  {| atomicity := atomicity o; consistency := consistency o;
     persistency := persistency o; concurrency := v; safety := safety o;
     security := security o; immutable := immutable o; ref_count := ref_count o |}.
Definition set_safety (v : gint) (o : JSemantics) : JSemantics :=
  {| atomicity := atomicity o; consistency := consistency o;
     persistency := persistency o; concurrency := concurrency o; safety := v;
     security := security o; immutable := immutable o; ref_count := ref_count o |}.
Definition set_security (v : gint) (o : JSemantics) : JSemantics :=
  {| atomicity := atomicity o; consistency := consistency o;
     persistency := persistency o; concurrency := concurrency o;
     safety := safety o; security := v; immutable := immutable o;
     ref_count := ref_count o |}.
Definition set_immutable (v : gboolean) (o : JSemantics) : JSemantics :=
  {| atomicity := atomicity o; consistency := consistency o;
     persistency := persistency o; concurrency := concurrency o;
     safety := safety o; security := security o; immutable := v;
     ref_count := ref_count o |}.
Definition set_ref_count (v : gint) (o : JSemantics) : JSemantics :=
  {| atomicity := atomicity o; consistency := consistency o;
     persistency := persistency o; concurrency := concurrency o;
     safety := safety o; security := security o; immutable := immutable o;
     ref_count := v |}.

(** What a run leaves behind besides the heap, oldest first. *)
Inductive Event : Type :=
| Logged (m : GLogMessage)
| SliceNew (l : loc)
| SliceFree (l : loc).

Record State : Type := {
  slices : gmap loc JSemantics;
  journal : list Event
}.

(** A C function: it reads and writes the state, and its behaviour is
    undefined ([None]) when it goes through [NULL] or a freed slice. *)
Definition M (A : Type) : Type := State → option (A * State).

#[export] Instance M_ret : MRet M := λ A a s, Some (a, s).
#[export] Instance M_bind : MBind M := λ A B f m s,
  match m s with
  | Some (a, s') => f a s'
  | None => None
  end.

Definition record (e : Event) : M () := λ s,
  Some ((), {| slices := slices s; journal := journal s ++ [e] |}).

(** [p->field] *)
Definition read (p : pointer) : M JSemantics := λ s,
  match p with
  | None => None
  | Some l => match slices s !! l with
              | Some o => Some (o, s)
              | None => None
              end
  end.

(** [p->field = v], as an update [f] of the struct *)
Definition write (p : pointer) (f : JSemantics → JSemantics) : M () := λ s,
  match p with
  | None => None
  | Some l => match slices s !! l with
              | Some o => Some ((), {| slices := <[l := f o]> (slices s);
                                       journal := journal s |})
              | None => None
              end
  end.

(** [g_slice_new (JSemantics)] together with the assignments that follow it
    and set every field: the slice is fresh and holds [init]. *)
Definition g_slice_new (init : JSemantics) : M pointer := λ s,
  let l := fresh (dom (slices s)) in
  Some (Some l, {| slices := <[l := init]> (slices s);
                   journal := journal s ++ [SliceNew l] |}).

Definition g_slice_free (p : pointer) : M () := λ s,
  match p with
  | None => None
  | Some l => match slices s !! l with
              | Some _ => Some ((), {| slices := delete l (slices s);
                                       journal := journal s ++ [SliceFree l] |})
              | None => None
              end
  end.

Definition g_warn_if_reached : M () :=
  record (Logged (g_warning "code should not be reached")).

Definition g_return_val_if_fail {A} (expr : bool) (check : string) (val : A)
    (rest : M A) : M A :=
  if expr then rest else record (Logged (g_critical check));; mret val.

Definition g_return_if_fail (expr : bool) (check : string) (rest : M ()) : M () :=
  g_return_val_if_fail expr check () rest.

Definition g_return_val_if_reached {A} (val : A) : M A :=
  record (Logged (g_critical "code should not be reached"));; mret val.

Definition non_null (p : pointer) : bool :=
  match p with Some _ => true | None => false end.

(** [g_atomic_int_inc (&p->ref_count)] *)
Definition g_atomic_int_inc (p : pointer) : M () :=
  write p (λ o, set_ref_count (wrap_gint (ref_count o + 1)) o).

(** [g_atomic_int_dec_and_test (&p->ref_count)]: whether the count is zero
    after the decrement. *)
Definition g_atomic_int_dec_and_test (p : pointer) : M gboolean :=
  write p (λ o, set_ref_count (wrap_gint (ref_count o - 1)) o);;
  o ← read p;
  mret (ref_count o =? 0).

Section Operations.
Context `{JSemanticsHeader}.

Definition j_semantics_new (template : gint) : M pointer :=
  semantics ← g_slice_new
    {| atomicity := J_SEMANTICS_ATOMICITY_NONE;
       concurrency := J_SEMANTICS_CONCURRENCY_OVERLAPPING;
       consistency := J_SEMANTICS_CONSISTENCY_IMMEDIATE;
       persistency := J_SEMANTICS_PERSISTENCY_EVENTUAL;
       safety := J_SEMANTICS_SAFETY_NONE;
       security := J_SEMANTICS_SECURITY_STRICT;
       immutable := FALSE;
       ref_count := 1 |};
  (if template =? J_SEMANTICS_TEMPLATE_DEFAULT then
     mret ()
   else if template =? J_SEMANTICS_TEMPLATE_POSIX then
     write semantics (set_atomicity J_SEMANTICS_ATOMICITY_OPERATION);;
     write semantics (set_concurrency J_SEMANTICS_CONCURRENCY_OVERLAPPING);;
     write semantics (set_consistency J_SEMANTICS_CONSISTENCY_IMMEDIATE);;
     write semantics (set_persistency J_SEMANTICS_PERSISTENCY_EVENTUAL);;
     write semantics (set_safety J_SEMANTICS_SAFETY_NONE);;
     write semantics (set_security J_SEMANTICS_SECURITY_STRICT)
   else if template =? J_SEMANTICS_TEMPLATE_CHECKPOINT then
     write semantics (set_atomicity J_SEMANTICS_ATOMICITY_NONE);;
     write semantics (set_concurrency J_SEMANTICS_CONCURRENCY_NON_OVERLAPPING);;
     write semantics (set_consistency J_SEMANTICS_CONSISTENCY_EVENTUAL);;
     write semantics (set_persistency J_SEMANTICS_PERSISTENCY_EVENTUAL);;
     write semantics (set_safety J_SEMANTICS_SAFETY_NONE);;
     write semantics (set_security J_SEMANTICS_SECURITY_NONE)
   else
     g_warn_if_reached);;
  mret semantics.

Definition j_semantics_ref (semantics : pointer) : M pointer :=
  g_return_val_if_fail (non_null semantics) "semantics != NULL" NULL (
    g_atomic_int_inc semantics;;
    o ← read semantics;
    (if negb (immutable o) then write semantics (set_immutable TRUE)
     else mret ());;
    mret semantics).

Definition j_semantics_unref (semantics : pointer) : M () :=
  g_return_if_fail (non_null semantics) "semantics != NULL" (
    zero ← g_atomic_int_dec_and_test semantics;
    if zero : bool then g_slice_free semantics else mret ()).

Definition j_semantics_set (semantics : pointer) (key : gint) (value : gint)
    : M () :=
  g_return_if_fail (non_null semantics) "semantics != NULL" (
    o ← read semantics;
    g_return_if_fail (negb (immutable o)) "!semantics->immutable" (
      if key =? J_SEMANTICS_ATOMICITY then
        write semantics (set_atomicity value)
      else if key =? J_SEMANTICS_CONCURRENCY then
        write semantics (set_concurrency value)
      else if key =? J_SEMANTICS_CONSISTENCY then
        write semantics (set_consistency value)
      else if key =? J_SEMANTICS_PERSISTENCY then
        write semantics (set_persistency value)
      else if key =? J_SEMANTICS_SAFETY then
        write semantics (set_safety value)
      else if key =? J_SEMANTICS_SECURITY then
        write semantics (set_security value)
      else
        g_warn_if_reached)).

Definition j_semantics_get (semantics : pointer) (key : gint) : M gint :=
  g_return_val_if_fail (non_null semantics) "semantics != NULL" (-1) (
    o ← read semantics;
    if key =? J_SEMANTICS_ATOMICITY then mret (atomicity o)
    else if key =? J_SEMANTICS_CONCURRENCY then mret (concurrency o)
    else if key =? J_SEMANTICS_CONSISTENCY then mret (consistency o)
    else if key =? J_SEMANTICS_PERSISTENCY then mret (persistency o)
    else if key =? J_SEMANTICS_SAFETY then mret (safety o)
    else if key =? J_SEMANTICS_SECURITY then mret (security o)
    else g_return_val_if_reached (-1)).

(** The body of the [for] loop of [j_semantics_parse] at [parts[i] = part]. *)
Definition parse_part (semantics : pointer) (part : string) : M () :=
  match strchr part "="%char with
  | None => mret ()
  | Some value =>
      let value := Some (next_char value) in
      if g_str_has_prefix part "atomicity=" then
        if g_strcmp0 value (Some "batch") =? 0 then
          j_semantics_set semantics J_SEMANTICS_ATOMICITY J_SEMANTICS_ATOMICITY_BATCH
        else if g_strcmp0 value (Some "operation") =? 0 then
          j_semantics_set semantics J_SEMANTICS_ATOMICITY J_SEMANTICS_ATOMICITY_OPERATION
        else if g_strcmp0 value (Some "none") =? 0 then
          j_semantics_set semantics J_SEMANTICS_ATOMICITY J_SEMANTICS_ATOMICITY_NONE
        else mret ()
      else if g_str_has_prefix part "concurrency=" then
        if g_strcmp0 value (Some "overlapping") =? 0 then
          j_semantics_set semantics J_SEMANTICS_CONCURRENCY
            J_SEMANTICS_CONCURRENCY_OVERLAPPING
        else if g_strcmp0 value (Some "non-overlapping") =? 0 then
          j_semantics_set semantics J_SEMANTICS_CONCURRENCY
            J_SEMANTICS_CONCURRENCY_NON_OVERLAPPING
        else if g_strcmp0 value (Some "none") =? 0 then
          j_semantics_set semantics J_SEMANTICS_CONCURRENCY J_SEMANTICS_CONCURRENCY_NONE
        else mret ()
      else if g_str_has_prefix part "consistency=" then
        if g_strcmp0 value (Some "immediate") =? 0 then
          j_semantics_set semantics J_SEMANTICS_CONSISTENCY
            J_SEMANTICS_CONSISTENCY_IMMEDIATE
        else if g_strcmp0 value (Some "eventual") =? 0 then
          j_semantics_set semantics J_SEMANTICS_CONSISTENCY
            J_SEMANTICS_CONSISTENCY_EVENTUAL
        else if g_strcmp0 value (Some "none") =? 0 then
          j_semantics_set semantics J_SEMANTICS_CONSISTENCY J_SEMANTICS_CONSISTENCY_NONE
        else mret ()
      else if g_str_has_prefix part "persistency=" then
        if g_strcmp0 value (Some "immediate") =? 0 then
          j_semantics_set semantics J_SEMANTICS_PERSISTENCY
            J_SEMANTICS_PERSISTENCY_IMMEDIATE
        else if g_strcmp0 value (Some "eventual") =? 0 then
          j_semantics_set semantics J_SEMANTICS_PERSISTENCY
            J_SEMANTICS_PERSISTENCY_EVENTUAL
        else if g_strcmp0 value (Some "none") =? 0 then
          j_semantics_set semantics J_SEMANTICS_PERSISTENCY J_SEMANTICS_PERSISTENCY_NONE
        else mret ()
      else if g_str_has_prefix part "safety=" then
        if g_strcmp0 value (Some "storage") =? 0 then
          j_semantics_set semantics J_SEMANTICS_SAFETY J_SEMANTICS_SAFETY_STORAGE
        else if g_strcmp0 value (Some "network") =? 0 then
          j_semantics_set semantics J_SEMANTICS_SAFETY J_SEMANTICS_SAFETY_NETWORK
        else if g_strcmp0 value (Some "none") =? 0 then
          j_semantics_set semantics J_SEMANTICS_SAFETY J_SEMANTICS_SAFETY_NONE
        else mret ()
      else if g_str_has_prefix part "security=" then
        if g_strcmp0 value (Some "strict") =? 0 then
          j_semantics_set semantics J_SEMANTICS_SECURITY J_SEMANTICS_SECURITY_STRICT
        else if g_strcmp0 value (Some "none") =? 0 then
          j_semantics_set semantics J_SEMANTICS_SECURITY J_SEMANTICS_SECURITY_NONE
        else mret ()
      else mret ()
  end.

(** The loop [for (i = 0; i < parts_len; i++)]: every part once, in order. *)
Fixpoint parse_parts (semantics : pointer) (parts : list string) : M () :=
  match parts with
  | [] => mret ()
  | part :: rest => parse_part semantics part;; parse_parts semantics rest
  end.

(** A [gchar const*] argument is a string or [NULL]. *)
Definition j_semantics_parse (template_str semantics_str : option string)
    : M pointer :=
  semantics ←
    (if g_strcmp0 template_str (Some "posix") =? 0 then
       j_semantics_new J_SEMANTICS_TEMPLATE_POSIX
     else if g_strcmp0 template_str (Some "checkpoint") =? 0 then
       j_semantics_new J_SEMANTICS_TEMPLATE_CHECKPOINT
     else
       j_semantics_new J_SEMANTICS_TEMPLATE_DEFAULT);
  match semantics_str with
  | None => mret semantics
  | Some semantics_str =>
      let parts := g_strsplit semantics_str ","%char in
      let parts_len := g_strv_length parts in
      parse_parts semantics (take parts_len parts);;
      mret semantics
  end.

(** One call of the public interface, and a caller as the calls it makes. *)
Inductive Call : Type :=
| call_new (template : gint)
| call_parse (template_str semantics_str : option string)
| call_ref (semantics : pointer)
| call_unref (semantics : pointer)
| call_set (semantics : pointer) (key value : gint)
| call_get (semantics : pointer) (key : gint).

Definition perform (c : Call) : M () :=
  match c with
  | call_new template => j_semantics_new template;; mret ()
  | call_parse template_str semantics_str =>
      j_semantics_parse template_str semantics_str;; mret ()
  | call_ref semantics => j_semantics_ref semantics;; mret ()
  | call_unref semantics => j_semantics_unref semantics
  | call_set semantics key value => j_semantics_set semantics key value
  | call_get semantics key => j_semantics_get semantics key;; mret ()
  end.

Fixpoint perform_all (cs : list Call) : M () :=
  match cs with
  | [] => mret ()
  | c :: rest => perform c;; perform_all rest
  end.

End Operations.

(** Modelled from the spec: [jsemantics.h] is not among the sources. One
    header the compiler accepts, used to run the operations on concrete
    inputs: each enumeration numbered from 0, as C numbers an enumeration
    that gives no values, in the order in which [j_semantics_parse] tests
    the names. The theorems hold for every header. *)
Definition julea_header : JSemanticsHeader.
Proof.
  refine {|
    J_SEMANTICS_TEMPLATE_DEFAULT := 0;
    J_SEMANTICS_TEMPLATE_POSIX := 1;
    J_SEMANTICS_TEMPLATE_CHECKPOINT := 2;
    J_SEMANTICS_ATOMICITY := 0;
    J_SEMANTICS_CONCURRENCY := 1;
    J_SEMANTICS_CONSISTENCY := 2;
    J_SEMANTICS_PERSISTENCY := 3;
    J_SEMANTICS_SAFETY := 4;
    J_SEMANTICS_SECURITY := 5;
    J_SEMANTICS_ATOMICITY_BATCH := 0;
    J_SEMANTICS_ATOMICITY_OPERATION := 1;
    J_SEMANTICS_ATOMICITY_NONE := 2;
    J_SEMANTICS_CONCURRENCY_OVERLAPPING := 0;
    J_SEMANTICS_CONCURRENCY_NON_OVERLAPPING := 1;
    J_SEMANTICS_CONCURRENCY_NONE := 2;
    J_SEMANTICS_CONSISTENCY_IMMEDIATE := 0;
    J_SEMANTICS_CONSISTENCY_EVENTUAL := 1;
    J_SEMANTICS_CONSISTENCY_NONE := 2;
    J_SEMANTICS_PERSISTENCY_IMMEDIATE := 0;
    J_SEMANTICS_PERSISTENCY_EVENTUAL := 1;
    J_SEMANTICS_PERSISTENCY_NONE := 2;
    J_SEMANTICS_SAFETY_STORAGE := 0;
    J_SEMANTICS_SAFETY_NETWORK := 1;
    J_SEMANTICS_SAFETY_NONE := 2;
    J_SEMANTICS_SECURITY_STRICT := 0;
    J_SEMANTICS_SECURITY_NONE := 1
  |}; by apply (bool_decide_unpack _).
Defined.

(** The state before anything was allocated or logged. *)
Definition initial : State := {| slices := ∅; journal := [] |}.

(** *** Vocabulary of the statements *)

(** The table of section 4.1 of the specification, one row per template. *)
Section Table.
Context `{JSemanticsHeader}.

Definition default_row : JSemantics :=
  {| atomicity := J_SEMANTICS_ATOMICITY_NONE;
     concurrency := J_SEMANTICS_CONCURRENCY_OVERLAPPING;
     consistency := J_SEMANTICS_CONSISTENCY_IMMEDIATE;
     persistency := J_SEMANTICS_PERSISTENCY_EVENTUAL;
     safety := J_SEMANTICS_SAFETY_NONE;
     security := J_SEMANTICS_SECURITY_STRICT;
     immutable := FALSE;
     ref_count := 1 |}.

Definition posix_row : JSemantics :=
  {| atomicity := J_SEMANTICS_ATOMICITY_OPERATION;
     concurrency := J_SEMANTICS_CONCURRENCY_OVERLAPPING;
     consistency := J_SEMANTICS_CONSISTENCY_IMMEDIATE;
     persistency := J_SEMANTICS_PERSISTENCY_EVENTUAL;
     safety := J_SEMANTICS_SAFETY_NONE;
     security := J_SEMANTICS_SECURITY_STRICT;
     immutable := FALSE;
     ref_count := 1 |}.

Definition checkpoint_row : JSemantics :=
  {| atomicity := J_SEMANTICS_ATOMICITY_NONE;
     concurrency := J_SEMANTICS_CONCURRENCY_NON_OVERLAPPING;
     consistency := J_SEMANTICS_CONSISTENCY_EVENTUAL;
     persistency := J_SEMANTICS_PERSISTENCY_EVENTUAL;
     safety := J_SEMANTICS_SAFETY_NONE;
     security := J_SEMANTICS_SECURITY_NONE;
     immutable := FALSE;
     ref_count := 1 |}.

End Table.

(** The six dimensions by name, with the key, the field and the assignment
    that belong to each. *)
Inductive Dimension : Type :=
| Atomicity | Concurrency | Consistency | Persistency | Safety | Security.

#[export] Instance Dimension_eq_dec : EqDecision Dimension.
Proof. solve_decision. Defined.

Definition key_of `{JSemanticsHeader} (d : Dimension) : gint :=
  match d with
  | Atomicity => J_SEMANTICS_ATOMICITY
  | Concurrency => J_SEMANTICS_CONCURRENCY
  | Consistency => J_SEMANTICS_CONSISTENCY
  | Persistency => J_SEMANTICS_PERSISTENCY
  | Safety => J_SEMANTICS_SAFETY
  | Security => J_SEMANTICS_SECURITY
  end.

Definition project (d : Dimension) (o : JSemantics) : gint :=
  match d with
  | Atomicity => atomicity o
  | Concurrency => concurrency o
  | Consistency => consistency o
  | Persistency => persistency o
  | Safety => safety o
  | Security => security o
  end.

Definition assign (d : Dimension) (v : gint) (o : JSemantics) : JSemantics :=
  match d with
  | Atomicity => set_atomicity v o
  | Concurrency => set_concurrency v o
  | Consistency => set_consistency v o
  | Persistency => set_persistency v o
  | Safety => set_safety v o
  | Security => set_security v o
  end.

(** The override grammar in the words of section 4.1: a token is split at its
    first [=] into a key and a value; the key is compared with the six
    dimension names and the value with the names of that dimension's values,
    both case-sensitively; anything unrecognised changes nothing; tokens are
    applied from left to right. *)
Fixpoint key_value (token : string) : option (string * string) :=
  match token with
  | EmptyString => None
  | String a r =>
      if Ascii.eqb a "="%char then Some (EmptyString, r)
      else match key_value r with
           | Some (k, v) => Some (String a k, v)
           | None => None
           end
  end.

Definition dimension_named (key : string) : option Dimension :=
  if String.eqb key "atomicity" then Some Atomicity
  else if String.eqb key "concurrency" then Some Concurrency
  else if String.eqb key "consistency" then Some Consistency
  else if String.eqb key "persistency" then Some Persistency
  else if String.eqb key "safety" then Some Safety
  else if String.eqb key "security" then Some Security
  else None.

Definition value_named `{JSemanticsHeader} (d : Dimension) (value : string)
    : option gint :=
  match d with
  | Atomicity =>
      if String.eqb value "batch" then Some J_SEMANTICS_ATOMICITY_BATCH
      else if String.eqb value "operation" then Some J_SEMANTICS_ATOMICITY_OPERATION
      else if String.eqb value "none" then Some J_SEMANTICS_ATOMICITY_NONE
      else None
  | Concurrency =>
      if String.eqb value "overlapping" then
        Some J_SEMANTICS_CONCURRENCY_OVERLAPPING
      else if String.eqb value "non-overlapping" then
        Some J_SEMANTICS_CONCURRENCY_NON_OVERLAPPING
      else if String.eqb value "none" then Some J_SEMANTICS_CONCURRENCY_NONE
      else None
  | Consistency =>
      if String.eqb value "immediate" then Some J_SEMANTICS_CONSISTENCY_IMMEDIATE
      else if String.eqb value "eventual" then Some J_SEMANTICS_CONSISTENCY_EVENTUAL
      else if String.eqb value "none" then Some J_SEMANTICS_CONSISTENCY_NONE
      else None
  | Persistency =>
      if String.eqb value "immediate" then Some J_SEMANTICS_PERSISTENCY_IMMEDIATE
      else if String.eqb value "eventual" then Some J_SEMANTICS_PERSISTENCY_EVENTUAL
      else if String.eqb value "none" then Some J_SEMANTICS_PERSISTENCY_NONE
      else None
  | Safety =>
      if String.eqb value "storage" then Some J_SEMANTICS_SAFETY_STORAGE
      else if String.eqb value "network" then Some J_SEMANTICS_SAFETY_NETWORK
      else if String.eqb value "none" then Some J_SEMANTICS_SAFETY_NONE
      else None
  | Security =>
      if String.eqb value "strict" then Some J_SEMANTICS_SECURITY_STRICT
      else if String.eqb value "none" then Some J_SEMANTICS_SECURITY_NONE
      else None
  end.

Definition override `{JSemanticsHeader} (o : JSemantics) (token : string)
    : JSemantics :=
  match key_value token with
  | None => o
  | Some (key, value) =>
      match dimension_named key with
      | None => o
      | Some d =>
          match value_named d value with
          | None => o
          | Some v => assign d v o
          end
      end
  end.

Definition template_named `{JSemanticsHeader} (template_name : option string)
    : JSemantics :=
  match template_name with
  | Some name =>
      if String.eqb name "posix" then posix_row
      else if String.eqb name "checkpoint" then checkpoint_row
      else default_row
  | None => default_row
  end.

Definition parse_spec `{JSemanticsHeader} (template_name overrides : option string)
    : JSemantics :=
  match overrides with
  | None => template_named template_name
  | Some text =>
      fold_left override (pieces ","%char text) (template_named template_name)
  end.

(** The six dimensions of a descriptor, in the order of the table. *)
Definition dimensions (o : JSemantics) : list gint :=
  [atomicity o; concurrency o; consistency o; persistency o; safety o; security o].

(** The state once a fresh slice holding [o] has been added to [s], and the
    pointer to that slice. *)
Definition fresh_slice (s : State) : loc := fresh (dom (slices s)).
Definition with_new (s : State) (o : JSemantics) : State :=
  {| slices := <[fresh_slice s := o]> (slices s);
     journal := journal s ++ [SliceNew (fresh_slice s)] |}.

(** The state in which the GLib log has one more message. *)
Definition logging (m : GLogMessage) (s : State) : State :=
  {| slices := slices s; journal := journal s ++ [Logged m] |}.

(** The events journaled between [s] and a later state [s']. *)
Definition since (s s' : State) : list Event :=
  drop (length (journal s)) (journal s').

(** The descriptor at [l] is immutable and has the six dimensions of [o]. *)
Definition frozen_as (o : JSemantics) (l : loc) (s : State) : Prop :=
  ∃ o', slices s !! l = Some o' ∧ immutable o' = TRUE
        ∧ dimensions o' = dimensions o.

(** From [s] to [s'] the journal only grows, and unless the slice at [l] was
    freed on the way, a descriptor frozen there stays as it is. *)
Definition keeps_frozen (o : JSemantics) (l : loc) (s s' : State) : Prop :=
  ∃ evs, journal s' = journal s ++ evs
         ∧ (SliceFree l ∉ evs → frozen_as o l s → frozen_as o l s').

(** [j_semantics_new template] in [s] returns a fresh descriptor with the six
    dimensions [dims], a reference count of 1 and not immutable, and leaves
    no message in the log. *)
Definition creates `{JSemanticsHeader} (template : gint) (dims : list gint)
    (s : State) : Prop :=
  ∃ o, j_semantics_new template s = Some (Some (fresh_slice s), with_new s o)
       ∧ dimensions o = dims ∧ ref_count o = 1 ∧ immutable o = FALSE.

(** No [=] occurs in [name]. *)
Fixpoint plain (name : string) : bool :=
  match name with
  | EmptyString => true
  | String a r => negb (Ascii.eqb a "="%char) && plain r
  end.

End JSemantics.

(** ** The store iterator ([lib/jstore-iterator.c]) *)

Module JStoreIterator.
Import GLib.

(** [struct JStoreIterator] *)
Record JStoreIterator : Type := {
  connection : pointer;
  store : pointer;
  cursor : pointer
}.

Definition set_connection (v : pointer) (o : JStoreIterator) : JStoreIterator :=
  {| connection := v; store := store o; cursor := cursor o |}.
Definition set_store (v : pointer) (o : JStoreIterator) : JStoreIterator :=
  {| connection := connection o; store := v; cursor := cursor o |}.
Definition set_cursor (v : pointer) (o : JStoreIterator) : JStoreIterator :=
  {| connection := connection o; store := store o; cursor := v |}.

(** The functions of other files that the iterator calls: the operation
    cache, the store, the connection pool, the collection and the MongoDB
    driver. None of them is among the sources, so each is a call whose
    answer the environment chooses. *)
Inductive Call : Type :=
| j_operation_cache_flush
| j_store_ref (store : pointer)
| j_connection_pool_pop_meta (index : Z)
| bson_shared_empty
| j_store_collection_collections (store : pointer)
| mongo_find (conn : pointer) (ns : option string) (query fields : pointer)
    (limit skip options : gint)
| mongo_cursor_destroy (cursor : pointer)
| j_connection_pool_push_meta (index : Z) (connection : pointer)
| j_store_unref (store : pointer)
| mongo_cursor_next (cursor : pointer)
| mongo_cursor_bson (cursor : pointer)
| j_collection_new_from_bson (store : pointer) (b : pointer).

(** What a call gives back; [()] where the iterator uses no result. *)
Definition result (c : Call) : Type :=
  match c with
  | j_store_ref _ => pointer
  | j_connection_pool_pop_meta _ => pointer
  | bson_shared_empty => pointer
  | j_store_collection_collections _ => option string
  | mongo_find _ _ _ _ _ _ _ => pointer
  | mongo_cursor_next _ => gint
  | mongo_cursor_bson _ => pointer
  | j_collection_new_from_bson _ _ => pointer
  | j_operation_cache_flush | mongo_cursor_destroy _
  | j_connection_pool_push_meta _ _ | j_store_unref _ => ()
  end.

(** A program over these calls: it returns, or its behaviour is undefined,
    or it makes a call and goes on with the answer. *)
Inductive Prog (A : Type) : Type :=
| Ret (a : A)
| Undefined
| Do (c : Call) (k : result c → Prog A).
Arguments Ret {A} a.
Arguments Undefined {A}.
Arguments Do {A} c k.

Fixpoint prog_bind {A B} (p : Prog A) (f : A → Prog B) : Prog B :=
  match p with
  | Ret a => f a
  | Undefined => Undefined
  | Do c k => Do c (λ r, prog_bind (k r) f)
  end.

Record State : Type := {
  slices : gmap loc JStoreIterator;
  journal : list GLogMessage
}.

Definition M (A : Type) : Type := State → Prog (A * State).

#[export] Instance M_ret : MRet M := λ A a s, Ret (a, s).
#[export] Instance M_bind : MBind M := λ A B f m s,
  prog_bind (m s) (λ as', f as'.1 as'.2).

Definition call (c : Call) : M (result c) := λ s, Do c (λ r, Ret (r, s)).

Definition g_log (m : GLogMessage) : M () := λ s,
  Ret ((), {| slices := slices s; journal := journal s ++ [m] |}).

Definition read (p : pointer) : M JStoreIterator := λ s,
  match p with
  | None => Undefined
  | Some l => match slices s !! l with
              | Some o => Ret (o, s)
              | None => Undefined
              end
  end.

Definition write (p : pointer) (f : JStoreIterator → JStoreIterator) : M () := λ s,
  match p with
  | None => Undefined
  | Some l => match slices s !! l with
              | Some o => Ret ((), {| slices := <[l := f o]> (slices s);
                                      journal := journal s |})
              | None => Undefined
              end
  end.

(** [g_slice_new (JStoreIterator)]: a fresh slice. Its fields are
    indeterminate until assigned; each is assigned before it is read, and
    they stand as [NULL] until then. *)
Definition g_slice_new : M pointer := λ s,
  let l := fresh (dom (slices s)) in
  Ret (Some l, {| slices := <[l := {| connection := NULL; store := NULL;
                                      cursor := NULL |}]> (slices s);
                  journal := journal s |}).

Definition g_slice_free (p : pointer) : M () := λ s,
  match p with
  | None => Undefined
  | Some l => match slices s !! l with
              | Some _ => Ret ((), {| slices := delete l (slices s);
                                      journal := journal s |})
              | None => Undefined
              end
  end.

Definition g_return_val_if_fail {A} (expr : bool) (check : string) (val : A)
    (rest : M A) : M A :=
  if expr then rest else g_log (g_critical check);; mret val.

Definition g_return_if_fail (expr : bool) (check : string) (rest : M ()) : M () :=
  g_return_val_if_fail expr check () rest.

Definition non_null (p : pointer) : bool :=
  match p with Some _ => true | None => false end.

Section Operations.
(** [MONGO_OK] of the driver's [mongo.h], which is not among the sources. *)
Variable MONGO_OK : gint.

Definition j_store_iterator_new (store_ : pointer) : M pointer :=
  g_return_val_if_fail (non_null store_) "store != NULL" NULL (
    call j_operation_cache_flush;;
    iterator ← g_slice_new;
    r ← call (j_store_ref store_);
    write iterator (set_store r);;
    r ← call (j_connection_pool_pop_meta 0);
    write iterator (set_connection r);;
    empty ← call bson_shared_empty;
    o ← read iterator;
    ns ← call (j_store_collection_collections (store o));
    r ← call (mongo_find (connection o) ns empty NULL 0 0 0);
    write iterator (set_cursor r);;
    mret iterator).

Definition j_store_iterator_free (iterator : pointer) : M () :=
  g_return_if_fail (non_null iterator) "iterator != NULL" (
    o ← read iterator;
    call (mongo_cursor_destroy (cursor o));;
    o ← read iterator;
    call (j_connection_pool_push_meta 0 (connection o));;
    o ← read iterator;
    call (j_store_unref (store o));;
    g_slice_free iterator).

Definition j_store_iterator_next (iterator : pointer) : M gboolean :=
  g_return_val_if_fail (non_null iterator) "iterator != NULL" FALSE (
    o ← read iterator;
    r ← call (mongo_cursor_next (cursor o));
    mret (r =? MONGO_OK)).

Definition j_store_iterator_get (iterator : pointer) : M pointer :=
  g_return_val_if_fail (non_null iterator) "iterator != NULL" NULL (
    o ← read iterator;
    b ← call (mongo_cursor_bson (cursor o));
    collection ← call (j_collection_new_from_bson (store o) b);
    mret collection).

End Operations.

(** A call as it happened, with its answer. *)
Record Event : Type := Called { callee : Call; answer : result callee }.

(** Running a program in an environment: [respond] answers each call from
    the state [W] of the collaborators. The run gives the program's value
    ([None] when undefined), the collaborators' state and the calls made,
    oldest first. *)
Fixpoint run {W A} (respond : ∀ c : Call, W → result c * W) (p : Prog A) (w : W)
    : option A * W * list Event :=
  match p with
  | Ret a => (Some a, w, [])
  | Undefined => (None, w, [])
  | Do c k =>
      let rw := respond c w in
      let out := run respond (k rw.1) rw.2 in
      (out.1.1, out.1.2, Called c rw.1 :: out.2)
  end.

Definition initial : State := {| slices := ∅; journal := [] |}.

Definition is_flush (c : Call) : bool :=
  match c with j_operation_cache_flush => true | _ => false end.

(** The calls that open, drive or close a cursor. *)
Definition is_cursor_call (c : Call) : bool :=
  match c with
  | mongo_find _ _ _ _ _ _ _ | mongo_cursor_next _ | mongo_cursor_bson _
  | mongo_cursor_destroy _ => true
  | _ => false
  end.

(** The calls that give a resource back. *)
Definition is_release (c : Call) : bool :=
  match c with
  | mongo_cursor_destroy _ | j_connection_pool_push_meta _ _ | j_store_unref _ => true
  | _ => false
  end.

(** *** Vocabulary of the statements *)

(** The state in which the GLib log has one more critical message. *)
Definition logged (check : string) (s : State) : State :=
  {| slices := slices s; journal := journal s ++ [g_critical check] |}.

Definition fresh_slice (s : State) : loc := fresh (dom (slices s)).

(** The state in which the slice at [l] holds [o]. *)
Definition holding (l : loc) (o : JStoreIterator) (s : State) : State :=
  {| slices := <[l := o]> (slices s); journal := journal s |}.

(** The calls of a trace, without their answers. *)
Definition calls (tr : list Event) : list Call := callee <$> tr.

(** How many calls of a trace satisfy [p]. *)
Definition count (p : Call → bool) (tr : list Event) : nat :=
  length (List.filter p (calls tr)).

(** An environment in which every acquisition fails: the pool has no
    connection and the driver opens no cursor, each answering [NULL]. *)
Definition failing (c : Call) (w : ()) : result c * () :=
  (match c return result c with
   | j_store_ref store => store
   | j_connection_pool_pop_meta _ => NULL
   | bson_shared_empty => NULL
   | j_store_collection_collections _ => None
   | mongo_find _ _ _ _ _ _ _ => NULL
   | mongo_cursor_next _ => -1
   | mongo_cursor_bson _ => NULL
   | j_collection_new_from_bson _ _ => NULL
   | j_operation_cache_flush | mongo_cursor_destroy _
   | j_connection_pool_push_meta _ _ | j_store_unref _ => ()
   end, w).

(** An environment in which the pool hands out a connection and the store
    names its collection, but the driver cannot open the cursor. *)
Definition cursorless (c : Call) (w : ()) : result c * () :=
  (match c return result c with
   | j_store_ref store => store
   | j_connection_pool_pop_meta _ => Some 7%positive
   | bson_shared_empty => Some 8%positive
   | j_store_collection_collections _ => Some "JULEA.Collections"%string
   | mongo_find _ _ _ _ _ _ _ => NULL
   | mongo_cursor_next _ => -1
   | mongo_cursor_bson _ => NULL
   | j_collection_new_from_bson _ _ => NULL
   | j_operation_cache_flush | mongo_cursor_destroy _
   | j_connection_pool_push_meta _ _ | j_store_unref _ => ()
   end, w).

End JStoreIterator.

(** ** Further vocabulary for the descriptor *)

Module JSemanticsUse.
Import GLib JSemantics.

(** Every dimension of [o] holds an enumerator of its own enumeration. *)
Definition in_enumerations `{JSemanticsHeader} (o : JSemantics) : Prop :=
  atomicity o ∈ [J_SEMANTICS_ATOMICITY_BATCH; J_SEMANTICS_ATOMICITY_OPERATION;
                 J_SEMANTICS_ATOMICITY_NONE]
  ∧ concurrency o ∈ [J_SEMANTICS_CONCURRENCY_OVERLAPPING;
                     J_SEMANTICS_CONCURRENCY_NON_OVERLAPPING;
                     J_SEMANTICS_CONCURRENCY_NONE]
  ∧ consistency o ∈ [J_SEMANTICS_CONSISTENCY_IMMEDIATE;
                     J_SEMANTICS_CONSISTENCY_EVENTUAL; J_SEMANTICS_CONSISTENCY_NONE]
  ∧ persistency o ∈ [J_SEMANTICS_PERSISTENCY_IMMEDIATE;
                     J_SEMANTICS_PERSISTENCY_EVENTUAL; J_SEMANTICS_PERSISTENCY_NONE]
  ∧ safety o ∈ [J_SEMANTICS_SAFETY_STORAGE; J_SEMANTICS_SAFETY_NETWORK;
                J_SEMANTICS_SAFETY_NONE]
  ∧ security o ∈ [J_SEMANTICS_SECURITY_STRICT; J_SEMANTICS_SECURITY_NONE].

(** The descriptor a call is made on, [NULL] for a call that makes one. *)
Definition target (c : Call) : pointer :=
  match c with
  | call_new _ | call_parse _ _ => NULL
  | call_ref p | call_unref p | call_set p _ _ | call_get p _ => p
  end.

(** The dimension a token of an override string names, if any. *)
Definition names (token : string) : option Dimension :=
  match key_value token with
  | Some (key, _) => dimension_named key
  | None => None
  end.

(** The dimensions the tokens of an override string name. *)
Definition named (text : string) : list Dimension :=
  omap names (pieces ","%char text).

End JSemanticsUse.

(** ** Further vocabulary for the iterator *)

Module JStoreIteratorUse.
Import GLib JStoreIterator.

(** What a caller does with an iterator between making and freeing it. *)
Inductive Use : Type := use_next | use_get.

Section Session.
Variable MONGO_OK : gint.

Definition use (iterator : pointer) (u : Use) : M () :=
  match u with
  | use_next => j_store_iterator_next MONGO_OK iterator;; mret ()
  | use_get => j_store_iterator_get iterator;; mret ()
  end.

Fixpoint use_all (iterator : pointer) (us : list Use) : M () :=
  match us with
  | [] => mret ()
  | u :: rest => use iterator u;; use_all iterator rest
  end.

(** A whole life of an iterator over [store_]. *)
Definition session (store_ : pointer) (us : list Use) : M () :=
  iterator ← j_store_iterator_new store_;
  use_all iterator us;;
  j_store_iterator_free iterator.

End Session.

(** A call that reads the cursor [cur] or makes a collection of the store
    [st] from a record. *)
Definition traverses (cur st : pointer) (c : Call) : Prop :=
  match c with
  | mongo_cursor_next x | mongo_cursor_bson x => x = cur
  | j_collection_new_from_bson x _ => x = st
  | _ => False
  end.

Definition is_next (c : Call) : bool :=
  match c with mongo_cursor_next _ => true | _ => false end.

End JStoreIteratorUse.

(** ** The configuration tool ([tools/config.c]) *)

Module Config.
Import GLib.

(** The file's static variables, which the option parser fills in. *)
Record Options : Type := {
  opt_local : gboolean;
  opt_global : gboolean;
  opt_print : gboolean;
  opt_data : option string;
  opt_metadata : option string;
  opt_storage_backend : option string;
  opt_storage_path : option string
}.

Section Strip.
(** [g_ascii_isspace], the white space of GLib. *)
Variable g_ascii_isspace : ascii → bool.

(** [g_strchug]: the string without its leading white space. *)
Fixpoint g_strchug (s : string) : string :=
  match s with
  | EmptyString => EmptyString
  | String a r => if g_ascii_isspace a then g_strchug r else s
  end.

(** [g_strchomp]: the string without its trailing white space. *)
Fixpoint g_strchomp (s : string) : string :=
  match s with
  | EmptyString => EmptyString
  | String a r =>
      match g_strchomp r with
      | EmptyString => if g_ascii_isspace a then EmptyString
                       else String a EmptyString
      | String b r' => String a (String b r')
      end
  end.

Definition g_strstrip (s : string) : string := g_strchomp (g_strchug s).

(** No white space at the start of [x], none at its end. *)
Definition trimmed (x : string) : Prop := g_strchug x = x ∧ g_strchomp x = x.

(** The loop [for (i = 0; i < len; i++) g_strstrip (arr[i])]. *)
Fixpoint strip_each (arr : list string) : list string :=
  match arr with
  | [] => []
  | x :: rest => g_strstrip x :: strip_each rest
  end.

Definition string_split (string_ : string) : list string :=
  let arr := g_strsplit string_ ","%char in
  let len := g_strv_length arr in
  strip_each (take len arr) ++ drop len arr.

End Strip.

(** The functions of GLib and GIO that the tool calls. A [GFile], a
    [GKeyFile], a [GOptionContext] are pointers; a buffer is the text it
    holds; a [GError] is its message. *)
Inductive Call : Type :=
| g_type_init
| g_option_context_new
| g_option_context_add_main_entries (context : pointer) (long_names : list string)
| g_option_context_parse (context : pointer) (argv : list string)
| g_option_context_free (context : pointer)
| g_option_context_get_help (context : pointer)
| g_printerr (text : string)
| g_error_free (message : string)
| g_print (text : string)
| g_free (mem : option string)
| g_get_user_config_dir
| g_get_system_config_dirs
| g_build_filename (elements : list string)
| g_file_new_for_commandline_arg (arg : string)
| g_file_load_contents (file : pointer)
| g_object_unref (object : pointer)
| g_key_file_new
| g_key_file_set_string_list (key_file : pointer) (group key : string)
    (list : list string) (length : nat)
| g_key_file_set_string (key_file : pointer) (group key : string)
    (value : option string)
| g_key_file_to_data (key_file : pointer)
| g_file_get_parent (file : pointer)
| g_file_make_directory_with_parents (file : pointer)
| g_file_replace_contents (file : pointer) (contents : string) (length : Z)
| g_key_file_free (key_file : pointer)
| g_strfreev (str_array : list string).

(** What each gives back: the parser whether it succeeded, the options as
    it left them and the error it set if any; [g_file_load_contents]
    whether it succeeded and the buffer; [g_key_file_to_data] the text and
    its length. *)
Definition result (c : Call) : Type :=
  match c with
  | g_option_context_new => pointer
  | g_option_context_parse _ _ => gboolean * Options * option string
  | g_option_context_get_help _ => string
  | g_get_user_config_dir => string
  | g_get_system_config_dirs => list string
  | g_build_filename _ => string
  | g_file_new_for_commandline_arg _ => pointer
  | g_file_load_contents _ => gboolean * string
  | g_key_file_new => pointer
  | g_key_file_to_data _ => string * Z
  | g_file_get_parent _ => pointer
  | g_file_make_directory_with_parents _ => gboolean
  | g_file_replace_contents _ _ _ => gboolean
  | _ => ()
  end.

(** A program over these calls; [Undefined] where a GLib function is
    called outside its contract. *)
Inductive Prog (A : Type) : Type :=
| Ret (a : A)
| Undefined
| Do (c : Call) (k : result c → Prog A).
Arguments Ret {A} a.
Arguments Undefined {A}.
Arguments Do {A} c k.

Fixpoint prog_bind {A B} (p : Prog A) (f : A → Prog B) : Prog B :=
  match p with
  | Ret a => f a
  | Undefined => Undefined
  | Do c k => Do c (λ r, prog_bind (k r) f)
  end.

#[export] Instance Prog_ret : MRet Prog := λ A a, Ret a.
#[export] Instance Prog_bind : MBind Prog := λ A B f p, prog_bind p f.

Definition call (c : Call) : Prog (result c) := Do c (λ r, Ret r).

Record Event : Type := Called { callee : Call; answer : result callee }.

Fixpoint run {W A} (respond : ∀ c : Call, W → result c * W) (p : Prog A) (w : W)
    : option A * W * list Event :=
  match p with
  | Ret a => (Some a, w, [])
  | Undefined => (None, w, [])
  | Do c k =>
      let rw := respond c w in
      let out := run respond (k rw.1) rw.2 in
      (out.1.1, out.1.2, Called c rw.1 :: out.2)
  end.

Section Tool.
Variable g_ascii_isspace : ascii → bool.
(** Whether GLib is older than 2.35.1, where [g_type_init] must be called. *)
Variable glib_before_2_35_1 : bool.

Definition read_config (path : option string) : Prog gboolean :=
  match path with
  | None => mret FALSE
  | Some path =>
      file ← call (g_file_new_for_commandline_arg path);
      loaded ← call (g_file_load_contents file);
      let ret : gboolean := loaded.1 in
      let buf : string := loaded.2 in
      (if ret then call (g_print buf);; call (g_free (Some buf)) else mret ());;
      call (g_object_unref file);;
      mret ret
  end.

(** [string_split] hands its argument to [g_strsplit], which requires a
    string. *)
Definition write_config (o : Options) (path : option string) : Prog gboolean :=
  match opt_data o, opt_metadata o with
  | Some opt_data, Some opt_metadata =>
      let data := string_split g_ascii_isspace opt_data in
      let metadata := string_split g_ascii_isspace opt_metadata in
      key_file ← call g_key_file_new;
      call (g_key_file_set_string_list key_file "servers" "data" data
              (g_strv_length data));;
      call (g_key_file_set_string_list key_file "servers" "metadata" metadata
              (g_strv_length metadata));;
      call (g_key_file_set_string key_file "storage" "backend"
              (opt_storage_backend o));;
      call (g_key_file_set_string key_file "storage" "path" (opt_storage_path o));;
      serialised ← call (g_key_file_to_data key_file);
      let key_file_data : string := serialised.1 in
      let key_file_data_len : Z := serialised.2 in
      ret ← match path with
            | Some path =>
                file ← call (g_file_new_for_commandline_arg path);
                parent ← call (g_file_get_parent file);
                call (g_file_make_directory_with_parents parent);;
                ret ← call (g_file_replace_contents file key_file_data
                              key_file_data_len);
                call (g_object_unref file);;
                call (g_object_unref parent);;
                mret ret
            | None =>
                call (g_print key_file_data);;
                mret TRUE
            end;
      call (g_free (Some key_file_data));;
      call (g_key_file_free key_file);;
      call (g_strfreev data);;
      call (g_strfreev metadata);;
      mret ret
  | _, _ => Undefined
  end.

(** The condition under which [main] prints the help and gives up. *)
Definition usage_error (o : Options) : bool :=
  (opt_local o && opt_global o)
  || (opt_print o && (bool_decide (opt_data o ≠ None)
                      || bool_decide (opt_metadata o ≠ None)
                      || bool_decide (opt_storage_backend o ≠ None)
                      || bool_decide (opt_storage_path o ≠ None)))
  || (opt_print o && negb (opt_local o) && negb (opt_global o))
  || (negb (opt_print o)
      && (bool_decide (opt_data o = None)
          || bool_decide (opt_metadata o = None)
          || bool_decide (opt_storage_path o = None)
          || (negb (g_strcmp0 (opt_storage_backend o) (Some "null") =? 0)
              && negb (g_strcmp0 (opt_storage_backend o) (Some "gio") =? 0)
              && negb (g_strcmp0 (opt_storage_backend o) (Some "posix") =? 0)))).

(** The long names of the entries, in the order of the table. *)
Definition entries : list string :=
  ["local"; "global"; "print"; "data"; "metadata"; "storage-backend";
   "storage-path"]%string.

Definition main (argv : list string) : Prog gint :=
  (if glib_before_2_35_1 then call g_type_init else mret ());;
  context ← call g_option_context_new;
  call (g_option_context_add_main_entries context entries);;
  parsed ← call (g_option_context_parse context argv);
  let ok : gboolean := parsed.1.1 in
  let o : Options := parsed.1.2 in
  let error : option string := parsed.2 in
  if negb ok then
    call (g_option_context_free context);;
    match error with
    | Some message =>
        call (g_printerr (message +:+ String "010" EmptyString));;
        call (g_error_free message)
    | None => mret ()
    end;;
    mret 1
  else if usage_error o then
    help ← call (g_option_context_get_help context);
    call (g_option_context_free context);;
    call (g_print help);;
    call (g_free (Some help));;
    mret 1
  else
    call (g_option_context_free context);;
    path ← (if opt_local o then
              dir ← call g_get_user_config_dir;
              path ← call (g_build_filename [dir; "julea"; "julea"]%string);
              mret (Some path)
            else if opt_global o then
              dirs ← call g_get_system_config_dirs;
              path ← call (g_build_filename
                             match dirs with
                             | dir :: _ => [dir; "julea"; "julea"]%string
                             | [] => []
                             end);
              mret (Some path)
            else mret None);
    ret ← (if opt_print o then read_config path else write_config o path);
    call (g_free path);;
    mret (if ret : bool then 0 else 1).

(** The rest of [main] once the parser has answered [parsed] for the
    context [context]. *)
Definition after_parsing (context : pointer)
    (parsed : gboolean * Options * option string) : Prog gint :=
  let ok : gboolean := parsed.1.1 in
  let o : Options := parsed.1.2 in
  let error : option string := parsed.2 in
  if negb ok then
    call (g_option_context_free context);;
    match error with
    | Some message =>
        call (g_printerr (message +:+ String "010" EmptyString));;
        call (g_error_free message)
    | None => mret ()
    end;;
    mret 1
  else if usage_error o then
    help ← call (g_option_context_get_help context);
    call (g_option_context_free context);;
    call (g_print help);;
    call (g_free (Some help));;
    mret 1
  else
    call (g_option_context_free context);;
    path ← (if opt_local o then
              dir ← call g_get_user_config_dir;
              path ← call (g_build_filename [dir; "julea"; "julea"]%string);
              mret (Some path)
            else if opt_global o then
              dirs ← call g_get_system_config_dirs;
              path ← call (g_build_filename
                             match dirs with
                             | dir :: _ => [dir; "julea"; "julea"]%string
                             | [] => []
                             end);
              mret (Some path)
            else mret None);
    ret ← (if opt_print o then read_config path else write_config o path);
    call (g_free path);;
    mret (if ret : bool then 0 else 1).

End Tool.

(** [g_ascii_isspace] as GLib's character table has it: tab, line feed, form
    feed, carriage return and space. *)
Definition glib_isspace (a : ascii) : bool :=
  match N_of_ascii a with
  | 9%N | 10%N | 12%N | 13%N | 32%N => true
  | _ => false
  end.

(** [p] run in [w] returns [a], leaves the environment in [w'] and makes
    the calls [tr]. *)
Definition runs {W A} (respond : ∀ c : Call, W → result c * W) (p : Prog A)
    (w : W) (a : A) (w' : W) (tr : list Event) : Prop :=
  run respond p w = (Some a, w', tr).

(** The calls by which [write_config] fills the key file [key_file] and
    turns it into text, those by which it puts the text [text] into the
    file at [path], and those by which it gives its memory back. *)
Definition fills (g_ascii_isspace : ascii → bool) (key_file : pointer)
    (o : Options) (data metadata : string) : list Call :=
  [g_key_file_new;
   g_key_file_set_string_list key_file "servers" "data"
     (string_split g_ascii_isspace data)
     (length (string_split g_ascii_isspace data));
   g_key_file_set_string_list key_file "servers" "metadata"
     (string_split g_ascii_isspace metadata)
     (length (string_split g_ascii_isspace metadata));
   g_key_file_set_string key_file "storage" "backend" (opt_storage_backend o);
   g_key_file_set_string key_file "storage" "path" (opt_storage_path o);
   g_key_file_to_data key_file].

Definition replaces (path : string) (file parent : pointer) (text : string)
    (len : Z) : list Call :=
  [g_file_new_for_commandline_arg path; g_file_get_parent file;
   g_file_make_directory_with_parents parent;
   g_file_replace_contents file text len;
   g_object_unref file; g_object_unref parent].

Definition frees (g_ascii_isspace : ascii → bool) (key_file : pointer)
    (text data metadata : string) : list Call :=
  [g_free (Some text); g_key_file_free key_file;
   g_strfreev (string_split g_ascii_isspace data);
   g_strfreev (string_split g_ascii_isspace metadata)].

(** The calls of [main] up to the parsing of the options. *)
Definition prelude (glib_before_2_35_1 : bool) (context : pointer)
    (argv : list string) : list Call :=
  (if glib_before_2_35_1 then [g_type_init] else [])
  ++ [g_option_context_new; g_option_context_add_main_entries context entries;
      g_option_context_parse context argv].

(** The calls that go to the file system. *)
Definition touches_files (c : Call) : bool :=
  match c with
  | g_file_new_for_commandline_arg _ | g_file_load_contents _
  | g_file_get_parent _ | g_file_make_directory_with_parents _
  | g_file_replace_contents _ _ _ => true
  | _ => false
  end.


Definition calls (tr : list Event) : list Call := callee <$> tr.

Definition count (p : Call → bool) (tr : list Event) : nat :=
  length (List.filter p (calls tr)).

(** The calls that parse the command line, make and free the option
    context, make a key file, and print to the standard output. *)
Definition parses (c : Call) : bool :=
  match c with g_option_context_parse _ _ => true | _ => false end.

Definition makes_context (c : Call) : bool :=
  match c with g_option_context_new => true | _ => false end.

Definition frees_context (c : Call) : bool :=
  match c with g_option_context_free _ => true | _ => false end.

Definition makes_key_file (c : Call) : bool :=
  match c with g_key_file_new => true | _ => false end.

Definition prints_text (c : Call) : bool :=
  match c with g_print _ => true | _ => false end.

(** What the parser answered, when [e] is a call of the parser. *)
Definition parsed (e : Event) : option (gboolean * Options * option string) :=
  match e with
  | Called (g_option_context_parse _ _) a => Some a
  | _ => None
  end.

(** What [main] does once the options are parsed, case by case. *)
Definition gives_up (context : pointer) (error : option string)
    (code : gint) (post : list Event) : Prop :=
  code = 1
  ∧ calls post
    = g_option_context_free context
      :: match error with
         | Some message =>
             [g_printerr (message +:+ String "010" EmptyString);
              g_error_free message]
         | None => []
         end.

Definition shows_help (context : pointer) (code : gint) (post : list Event)
    : Prop :=
  ∃ help : string,
    code = 1
    ∧ calls post = [g_option_context_get_help context;
                    g_option_context_free context; g_print help;
                    g_free (Some help)].

Definition prints (context : pointer) (o : Options) (code : gint)
    (post : list Event) : Prop :=
  ∃ (elements : list string) (path : string) (file : pointer) (ret : gboolean)
    (buf : string),
    code = (if ret then 0 else 1)
    ∧ Called (g_build_filename elements) path ∈ post
    ∧ Called (g_file_load_contents file) (ret, buf) ∈ post
    ∧ calls post
      = [g_option_context_free context;
         if opt_local o then g_get_user_config_dir else g_get_system_config_dirs;
         g_build_filename elements;
         g_file_new_for_commandline_arg path; g_file_load_contents file]
        ++ (if ret then [g_print buf; g_free (Some buf)] else [])
        ++ [g_object_unref file; g_free (Some path)].

Definition writes (g_ascii_isspace : ascii → bool) (context : pointer)
    (o : Options) (code : gint)
    (post : list Event) : Prop :=
  ∃ (data metadata : string) (key_file : pointer) (text : string) (len : Z)
    (ret : gboolean),
    opt_data o = Some data ∧ opt_metadata o = Some metadata
    ∧ code = (if ret then 0 else 1)
    ∧ Called g_key_file_new key_file ∈ post
    ∧ Called (g_key_file_to_data key_file) (text, len) ∈ post
    ∧ if opt_local o || opt_global o then
        ∃ (elements : list string) (path : string) (file parent : pointer),
          Called (g_build_filename elements) path ∈ post
          ∧ Called (g_file_replace_contents file text len) ret ∈ post
          ∧ calls post
            = [g_option_context_free context;
               if opt_local o then g_get_user_config_dir
               else g_get_system_config_dirs;
               g_build_filename elements]
              ++ fills g_ascii_isspace key_file o data metadata
              ++ replaces path file parent text len
              ++ frees g_ascii_isspace key_file text data metadata
              ++ [g_free (Some path)]
      else
        ret = TRUE
        ∧ calls post
          = [g_option_context_free context]
            ++ fills g_ascii_isspace key_file o data metadata
            ++ [g_print text]
            ++ frees g_ascii_isspace key_file text data metadata
            ++ [g_free None].

(** Collaborators without a state of their own: the parser answers
    [parsed], the file system answers [ok] wherever it can fail, a file and
    a key file read as [text], and a file name is its elements joined by
    slashes. *)
Definition answers (parsed : gboolean * Options * option string)
    (ok : gboolean) (text : string) (c : Call) (w : ()) : result c * () :=
  (match c as c return result c with
   | g_option_context_new => Some 1%positive
   | g_option_context_parse _ _ => parsed
   | g_option_context_get_help _ => "Usage:"%string
   | g_get_user_config_dir => "/home/julea/.config"%string
   | g_get_system_config_dirs => ["/etc/xdg"]%string
   | g_build_filename elements =>
       match elements with
       | [] => EmptyString
       | x :: rest => foldl (λ acc y, acc +:+ String "/"%char y) x rest
       end
   | g_file_new_for_commandline_arg _ => Some 2%positive
   | g_file_load_contents _ => (ok, text)
   | g_key_file_new => Some 3%positive
   | g_key_file_to_data _ => (text, Z.of_nat (String.length text))
   | g_file_get_parent _ => Some 4%positive
   | g_file_make_directory_with_parents _ => ok
   | g_file_replace_contents _ _ _ => ok
   | _ => ()
   end, w).

(** The text [l] joined by commas, and how many commas a text has. *)
Fixpoint join (l : list string) : string :=
  match l with
  | [] => EmptyString
  | [x] => x
  | x :: rest => x +:+ String ","%char (join rest)
  end.

Fixpoint commas (s : string) : nat :=
  match s with
  | EmptyString => 0%nat
  | String a r => ((if Ascii.eqb a ","%char then 1 else 0) + commas r)%nat
  end.

End Config.

(** ** Properties of the semantics descriptor *)

Module SemanticsProperties.
Import GLib JSemantics.

(** *** Running the monad *)

Lemma bind_run {A B} (m : M A) (f : A → M B) (s : State) :
  (m ≫= f) s = match m s with Some (a, s') => f a s' | None => None end.
Proof. reflexivity. Qed.

Lemma bind_inv {A B} (m : M A) (f : A → M B) s b s'' :
  (m ≫= f) s = Some (b, s'') →
  ∃ a s', m s = Some (a, s') ∧ f a s' = Some (b, s'').
Proof.
  rewrite bind_run. destruct (m s) as [[a s']|]; [eauto | discriminate].
Qed.

Lemma fresh_slice_unused (s : State) : slices s !! fresh_slice s = None.
Proof. unfold fresh_slice. apply (not_elem_of_dom (slices s)). apply is_fresh. Qed.

Lemma read_live l o s : slices s !! l = Some o → read (Some l) s = Some (o, s).
Proof. intros E. unfold read. by rewrite E. Qed.

Lemma write_live l o f s :
  slices s !! l = Some o →
  write (Some l) f s
  = Some ((), {| slices := <[l := f o]> (slices s); journal := journal s |}).
Proof. intros E. unfold write. by rewrite E. Qed.

Lemma state_eq (s : State) : {| slices := slices s; journal := journal s |} = s.
Proof. by destruct s. Qed.

Lemma g_slice_new_run init s :
  g_slice_new init s = Some (Some (fresh_slice s), with_new s init).
Proof. reflexivity. Qed.

Lemma mret_run {A} (a : A) (s : State) : (mret a : M A) s = Some (a, s).
Proof. reflexivity. Qed.

Lemma record_run e s :
  record e s = Some ((), {| slices := slices s; journal := journal s ++ [e] |}).
Proof. reflexivity. Qed.

(** Unfolds one step of a computation whose slice is known to be live. *)
Ltac live :=
  cbn [slices journal with_new];
  first [eassumption | apply lookup_insert_eq].
Ltac step :=
  first
    [ rewrite bind_run
    | rewrite g_slice_new_run
    | rewrite mret_run
    | rewrite record_run
    | erewrite read_live by live
    | erewrite write_live by live ];
  cbv beta iota.
Ltac steps := repeat step; cbn [slices journal with_new]; rewrite ?insert_insert_eq.

(** *** Strings *)

Lemma strcmp_eq a b : strcmp a b = 0 ↔ a = b.
Proof.
  revert b. induction a as [|x a IH]; intros [|y b]; cbn [strcmp]; try done.
  destruct (N.compare_spec (N_of_ascii x) (N_of_ascii y)) as [E| |].
  - apply (f_equal ascii_of_N) in E. rewrite !ascii_N_embedding in E. subst y.
    rewrite IH. split; [by intros -> | by intros [= ->]].
  - split; [done | intros [= -> _]; lia].
  - split; [done | intros [= -> _]; lia].
Qed.

Lemma g_strcmp0_eqb a b : (g_strcmp0 (Some a) (Some b) =? 0) = String.eqb a b.
Proof.
  cbn [g_strcmp0]. destruct (String.eqb_spec a b) as [->|N].
  - apply Z.eqb_eq. by apply strcmp_eq.
  - apply Z.eqb_neq. by rewrite strcmp_eq.
Qed.

Lemma g_strcmp0_null b : (g_strcmp0 None (Some b) =? 0) = false.
Proof. reflexivity. Qed.

Lemma strchr_key_value token :
  match strchr token "="%char with
  | None => key_value token = None
  | Some v => ∃ k, key_value token = Some (k, next_char v)
  end.
Proof.
  induction token as [|a r IH]; cbn [strchr key_value]; [done|].
  destruct (Ascii.eqb a "=") eqn:E; [by exists EmptyString|].
  destruct (strchr r "=") as [v|].
  - destruct IH as [k ->]. by exists (String a k).
  - by rewrite IH.
Qed.

Lemma g_str_has_prefix_key token k v name :
  key_value token = Some (k, v) → plain name = true →
  g_str_has_prefix token (name +:+ "=") = String.eqb k name.
Proof.
  revert k v name.
  induction token as [|a r IH]; intros k v name; cbn [key_value]; [done|].
  destruct (Ascii.eqb a "=") eqn:E.
  - intros [= <- <-] P. apply Ascii.eqb_eq in E as ->.
    destruct name as [|n ns]; [reflexivity|].
    cbn [plain] in P. apply andb_prop in P as [P _]. apply negb_true_iff in P.
    change (String n ns +:+ "=") with (String n (ns +:+ "=")).
    cbn [g_str_has_prefix String.eqb]. by rewrite Ascii.eqb_sym, P.
  - destruct (key_value r) as [[k' v']|] eqn:K; [|done]. intros [= <- <-] P.
    destruct name as [|n ns].
    + change ("" +:+ "=") with "=". cbn [g_str_has_prefix String.eqb]. by rewrite E.
    + change (String n ns +:+ "=") with (String n (ns +:+ "=")).
      cbn [plain] in P. apply andb_prop in P as [_ P].
      cbn [g_str_has_prefix String.eqb]. by rewrite (IH _ _ _ eq_refl P).
Qed.

Lemma g_strsplit_pieces d text :
  g_strsplit text d = pieces d text ∨ (text = EmptyString ∧ g_strsplit text d = []).
Proof. destruct text; [by right | by left]. Qed.

Section Labels.
Context `{JSemanticsHeader}.

Lemma template_labels_apart :
  J_SEMANTICS_TEMPLATE_POSIX ≠ J_SEMANTICS_TEMPLATE_DEFAULT
  ∧ J_SEMANTICS_TEMPLATE_CHECKPOINT ≠ J_SEMANTICS_TEMPLATE_DEFAULT
  ∧ J_SEMANTICS_TEMPLATE_CHECKPOINT ≠ J_SEMANTICS_TEMPLATE_POSIX.
Proof.
  pose proof template_labels_distinct as D. unfold template_labels in D.
  apply NoDup_cons in D as [D1 D]. apply NoDup_cons in D as [D2 _].
  set_solver.
Qed.

Lemma j_semantics_new_default s :
  j_semantics_new J_SEMANTICS_TEMPLATE_DEFAULT s
  = Some (Some (fresh_slice s), with_new s default_row).
Proof.
  unfold j_semantics_new. rewrite Z.eqb_refl. steps. reflexivity.
Qed.

Lemma j_semantics_new_posix s :
  j_semantics_new J_SEMANTICS_TEMPLATE_POSIX s
  = Some (Some (fresh_slice s), with_new s posix_row).
Proof.
  destruct template_labels_apart as (P & _ & _). apply Z.eqb_neq in P.
  unfold j_semantics_new. rewrite P, Z.eqb_refl. steps. reflexivity.
Qed.

Lemma j_semantics_new_checkpoint s :
  j_semantics_new J_SEMANTICS_TEMPLATE_CHECKPOINT s
  = Some (Some (fresh_slice s), with_new s checkpoint_row).
Proof.
  destruct template_labels_apart as (_ & C1 & C2). apply Z.eqb_neq in C1, C2.
  unfold j_semantics_new. rewrite C1, C2, Z.eqb_refl. steps. reflexivity.
Qed.

Lemma j_semantics_new_other template s :
  template ∉ template_labels →
  j_semantics_new template s
  = Some (Some (fresh_slice s),
          {| slices := slices (with_new s default_row);
             journal := journal (with_new s default_row)
                        ++ [Logged (g_warning "code should not be reached")] |}).
Proof.
  intros Out. unfold template_labels in Out.
  assert (template ≠ J_SEMANTICS_TEMPLATE_DEFAULT
          ∧ template ≠ J_SEMANTICS_TEMPLATE_POSIX
          ∧ template ≠ J_SEMANTICS_TEMPLATE_CHECKPOINT) as (A & B & C)
    by set_solver.
  apply Z.eqb_neq in A, B, C.
  unfold j_semantics_new, g_warn_if_reached. rewrite A, B, C. steps. reflexivity.
Qed.

(** *** Keys *)

Lemma key_of_inj d d' : key_of d = key_of d' → d = d'.
Proof.
  pose proof type_labels_distinct as D. unfold type_labels in D.
  set (pos := λ d, match d with
                   | Atomicity => 0 | Concurrency => 1 | Consistency => 2
                   | Persistency => 3 | Safety => 4 | Security => 5
                   end%nat).
  intros E.
  assert (pos d = pos d') as P.
  { eapply (NoDup_lookup _ _ _ (key_of d) D).
    - by destruct d.
    - rewrite E. by destruct d'. }
  destruct d, d'; (reflexivity || discriminate P).
Qed.

Lemma key_eqb d d' : (key_of d =? key_of d') = bool_decide (d = d').
Proof.
  case_bool_decide as E.
  - subst. apply Z.eqb_refl.
  - apply Z.eqb_neq. intros K. by apply E, key_of_inj.
Qed.

Lemma key_outside key d :
  key ∉ type_labels →
  (key =? match d with
          | Atomicity => J_SEMANTICS_ATOMICITY
          | Concurrency => J_SEMANTICS_CONCURRENCY
          | Consistency => J_SEMANTICS_CONSISTENCY
          | Persistency => J_SEMANTICS_PERSISTENCY
          | Safety => J_SEMANTICS_SAFETY
          | Security => J_SEMANTICS_SECURITY
          end) = false.
Proof.
  intros Out. apply Z.eqb_neq. intros ->. apply Out. unfold type_labels.
  destruct d; set_solver.
Qed.

Lemma key_inside key : key ∈ type_labels → ∃ d, key = key_of d.
Proof.
  unfold type_labels. intros In.
  repeat (apply elem_of_cons in In as [->|In]);
    [by exists Atomicity | by exists Concurrency | by exists Consistency
    | by exists Persistency | by exists Safety | by exists Security |].
  by apply elem_of_nil in In.
Qed.

(** Turns every test of a key against a label into a test on dimensions. *)
Ltac keys d :=
  change J_SEMANTICS_ATOMICITY with (key_of Atomicity);
  change J_SEMANTICS_CONCURRENCY with (key_of Concurrency);
  change J_SEMANTICS_CONSISTENCY with (key_of Consistency);
  change J_SEMANTICS_PERSISTENCY with (key_of Persistency);
  change J_SEMANTICS_SAFETY with (key_of Safety);
  change J_SEMANTICS_SECURITY with (key_of Security);
  rewrite ?key_eqb; destruct d;
  repeat first [ rewrite bool_decide_eq_true_2 by reflexivity
               | rewrite bool_decide_eq_false_2 by discriminate ];
  cbv beta iota.

(** Settles every test of a key that is none of the labels. *)
Ltac outside Out :=
  let K := fresh "K" in
  pose proof (λ d, key_outside _ d Out) as K;
  rewrite (K Atomicity), (K Concurrency), (K Consistency), (K Persistency),
    (K Safety), (K Security);
  clear K; cbv beta iota.

(** *** The operations on a live descriptor, on [NULL] and on a freed one *)

Lemma j_semantics_ref_live l o s :
  slices s !! l = Some o →
  j_semantics_ref (Some l) s
  = Some (Some l,
          {| slices := <[l := set_immutable TRUE
                                (set_ref_count (wrap_gint (ref_count o + 1)) o)]>
                         (slices s);
             journal := journal s |}).
Proof.
  intros L. unfold j_semantics_ref, g_return_val_if_fail, g_atomic_int_inc.
  cbn [non_null]. steps. cbn [immutable set_ref_count].
  destruct (immutable o) eqn:I; cbn [negb TRUE FALSE]; steps; [|reflexivity].
  do 3 f_equal. f_equal. destruct o; cbn in *; by subst.
Qed.

Lemma j_semantics_unref_live l o s :
  slices s !! l = Some o →
  j_semantics_unref (Some l) s
  = Some ((), if wrap_gint (ref_count o - 1) =? 0
              then {| slices := delete l (slices s);
                      journal := journal s ++ [SliceFree l] |}
              else {| slices := <[l := set_ref_count (wrap_gint (ref_count o - 1)) o]>
                                  (slices s);
                      journal := journal s |}).
Proof.
  intros L.
  unfold j_semantics_unref, g_return_if_fail, g_return_val_if_fail,
    g_atomic_int_dec_and_test.
  cbn [non_null]. steps. cbn [ref_count set_ref_count].
  destruct (wrap_gint (ref_count o - 1) =? 0); steps; [|reflexivity].
  unfold g_slice_free. cbn [slices journal]. rewrite lookup_insert_eq.
  by rewrite delete_insert_eq.
Qed.

Lemma j_semantics_set_frozen l o key value s :
  slices s !! l = Some o → immutable o = TRUE →
  j_semantics_set (Some l) key value s
  = Some ((), {| slices := slices s;
                 journal := journal s
                            ++ [Logged (g_critical "!semantics->immutable")] |}).
Proof.
  intros L I. unfold j_semantics_set, g_return_if_fail, g_return_val_if_fail.
  cbn [non_null]. steps. rewrite I. cbn [negb TRUE FALSE]. steps. reflexivity.
Qed.

Lemma j_semantics_set_mutable l o d value s :
  slices s !! l = Some o → immutable o = FALSE →
  j_semantics_set (Some l) (key_of d) value s
  = Some ((), {| slices := <[l := assign d value o]> (slices s);
                 journal := journal s |}).
Proof.
  intros L I. unfold j_semantics_set, g_return_if_fail, g_return_val_if_fail.
  cbn [non_null]. steps. rewrite I. cbn [negb TRUE FALSE]. cbv beta iota.
  keys d; steps; reflexivity.
Qed.

Lemma j_semantics_set_unknown_key l o key value s :
  slices s !! l = Some o → immutable o = FALSE → key ∉ type_labels →
  j_semantics_set (Some l) key value s
  = Some ((), {| slices := slices s;
                 journal := journal s
                            ++ [Logged (g_warning "code should not be reached")] |}).
Proof.
  intros L I Out. unfold j_semantics_set, g_return_if_fail, g_return_val_if_fail.
  cbn [non_null]. steps. rewrite I. cbn [negb TRUE FALSE]. cbv beta iota.
  outside Out.
  unfold g_warn_if_reached. steps. reflexivity.
Qed.

Lemma j_semantics_get_live l o d s :
  slices s !! l = Some o →
  j_semantics_get (Some l) (key_of d) s = Some (project d o, s).
Proof.
  intros L. unfold j_semantics_get, g_return_val_if_fail.
  cbn [non_null]. steps. keys d; steps; reflexivity.
Qed.

Lemma j_semantics_get_unknown_key l o key s :
  slices s !! l = Some o → key ∉ type_labels →
  j_semantics_get (Some l) key s
  = Some (-1, {| slices := slices s;
                 journal := journal s
                            ++ [Logged (g_critical "code should not be reached")] |}).
Proof.
  intros L Out. unfold j_semantics_get, g_return_val_if_fail.
  cbn [non_null]. steps.
  outside Out.
  unfold g_return_val_if_reached. steps. reflexivity.
Qed.

Lemma j_semantics_ref_null s :
  j_semantics_ref NULL s
  = Some (NULL, {| slices := slices s;
                   journal := journal s
                              ++ [Logged (g_critical "semantics != NULL")] |}).
Proof. reflexivity. Qed.

Lemma j_semantics_unref_null s :
  j_semantics_unref NULL s
  = Some ((), {| slices := slices s;
                 journal := journal s
                            ++ [Logged (g_critical "semantics != NULL")] |}).
Proof. reflexivity. Qed.

Lemma j_semantics_set_null key value s :
  j_semantics_set NULL key value s
  = Some ((), {| slices := slices s;
                 journal := journal s
                            ++ [Logged (g_critical "semantics != NULL")] |}).
Proof. reflexivity. Qed.

Lemma j_semantics_get_null key s :
  j_semantics_get NULL key s
  = Some (-1, {| slices := slices s;
                 journal := journal s
                            ++ [Logged (g_critical "semantics != NULL")] |}).
Proof. reflexivity. Qed.

(** Going through a pointer to a slice that is not live is undefined. *)
Lemma dangling l s :
  slices s !! l = None →
  j_semantics_ref (Some l) s = None
  ∧ j_semantics_unref (Some l) s = None
  ∧ (∀ key value, j_semantics_set (Some l) key value s = None)
  ∧ (∀ key, j_semantics_get (Some l) key s = None).
Proof.
  intros D.
  unfold j_semantics_ref, j_semantics_unref, j_semantics_set, j_semantics_get,
    g_return_if_fail, g_return_val_if_fail, g_atomic_int_inc,
    g_atomic_int_dec_and_test.
  cbn [non_null]. rewrite !bind_run. unfold read, write. rewrite D.
  repeat split; intros; by rewrite ?bind_run, ?D.
Qed.

(** *** The parser *)

Lemma assign_keeps d v o :
  immutable (assign d v o) = immutable o ∧ ref_count (assign d v o) = ref_count o.
Proof. by destruct d. Qed.

Lemma override_keeps o token :
  immutable (override o token) = immutable o
  ∧ ref_count (override o token) = ref_count o.
Proof.
  unfold override. repeat case_match; try done. apply assign_keeps.
Qed.

Lemma parse_part_live l o token s :
  slices s !! l = Some o → immutable o = FALSE →
  parse_part (Some l) token s
  = Some ((), {| slices := <[l := override o token]> (slices s);
                 journal := journal s |}).
Proof.
  intros L I.
  assert (Some ((), s)
          = Some ((), {| slices := <[l := o]> (slices s); journal := journal s |}))
    as Skip by (rewrite insert_id by done; by rewrite state_eq).
  unfold parse_part, override.
  pose proof (strchr_key_value token) as K.
  destruct (strchr token "=") as [v|]; [|by rewrite K].
  destruct K as [k K]. rewrite K. cbv zeta.
  rewrite !g_strcmp0_eqb.
  rewrite (g_str_has_prefix_key token k _ "atomicity" K eq_refl : _ "atomicity=" = _).
  rewrite (g_str_has_prefix_key token k _ "concurrency" K eq_refl : _ "concurrency=" = _).
  rewrite (g_str_has_prefix_key token k _ "consistency" K eq_refl : _ "consistency=" = _).
  rewrite (g_str_has_prefix_key token k _ "persistency" K eq_refl : _ "persistency=" = _).
  rewrite (g_str_has_prefix_key token k _ "safety" K eq_refl : _ "safety=" = _).
  rewrite (g_str_has_prefix_key token k _ "security" K eq_refl : _ "security=" = _).
  unfold dimension_named, value_named.
  repeat match goal with
         | |- context [String.eqb ?a ?b] => destruct (String.eqb a b)
         end;
    first [ exact Skip
          | exact (j_semantics_set_mutable l o Atomicity _ s L I)
          | exact (j_semantics_set_mutable l o Concurrency _ s L I)
          | exact (j_semantics_set_mutable l o Consistency _ s L I)
          | exact (j_semantics_set_mutable l o Persistency _ s L I)
          | exact (j_semantics_set_mutable l o Safety _ s L I)
          | exact (j_semantics_set_mutable l o Security _ s L I) ].
Qed.

Lemma parse_parts_live l parts : ∀ o s,
  slices s !! l = Some o → immutable o = FALSE →
  parse_parts (Some l) parts s
  = Some ((), {| slices := <[l := fold_left override parts o]> (slices s);
                 journal := journal s |}).
Proof.
  induction parts as [|part rest IH]; intros o s L I; cbn [parse_parts fold_left].
  - rewrite insert_id by done. by rewrite state_eq.
  - rewrite bind_run, (parse_part_live l o) by done.
    rewrite (IH (override o part)); cbn [slices journal].
    + by rewrite insert_insert_eq.
    + apply lookup_insert_eq.
    + by rewrite (proj1 (override_keeps o part)).
Qed.

Lemma template_named_fresh template_name :
  immutable (template_named template_name) = FALSE
  ∧ ref_count (template_named template_name) = 1.
Proof. unfold template_named. by repeat case_match. Qed.

Lemma fold_override_keeps parts : ∀ o,
  immutable (fold_left override parts o) = immutable o
  ∧ ref_count (fold_left override parts o) = ref_count o.
Proof.
  induction parts as [|part rest IH]; intros o; cbn [fold_left]; [done|].
  destruct (IH (override o part)) as [-> ->]. apply override_keeps.
Qed.

Lemma parse_spec_fresh template_name overrides :
  immutable (parse_spec template_name overrides) = FALSE
  ∧ ref_count (parse_spec template_name overrides) = 1.
Proof.
  unfold parse_spec. destruct overrides as [text|]; [|apply template_named_fresh].
  destruct (fold_override_keeps (pieces "," text) (template_named template_name))
    as [-> ->].
  apply template_named_fresh.
Qed.

Lemma j_semantics_parse_template template_str s :
  (if g_strcmp0 template_str (Some "posix") =? 0 then
     j_semantics_new J_SEMANTICS_TEMPLATE_POSIX
   else if g_strcmp0 template_str (Some "checkpoint") =? 0 then
     j_semantics_new J_SEMANTICS_TEMPLATE_CHECKPOINT
   else
     j_semantics_new J_SEMANTICS_TEMPLATE_DEFAULT) s
  = Some (Some (fresh_slice s), with_new s (template_named template_str)).
Proof.
  destruct template_str as [name|]; cbn [template_named].
  - rewrite !g_strcmp0_eqb.
    destruct (String.eqb name "posix"); [apply j_semantics_new_posix|].
    destruct (String.eqb name "checkpoint"); [apply j_semantics_new_checkpoint|].
    apply j_semantics_new_default.
  - rewrite !g_strcmp0_null. apply j_semantics_new_default.
Qed.

(** The parser computes what the grammar of the specification describes. *)
Lemma j_semantics_parse_refines template_str semantics_str s :
  j_semantics_parse template_str semantics_str s
  = Some (Some (fresh_slice s),
          with_new s (parse_spec template_str semantics_str)).
Proof.
  unfold j_semantics_parse. rewrite bind_run, j_semantics_parse_template.
  destruct semantics_str as [text|]; [|reflexivity].
  cbv zeta. unfold g_strv_length. rewrite firstn_all, bind_run.
  pose proof (proj1 (template_named_fresh template_str)) as I.
  erewrite parse_parts_live; [|by live|done].
  rewrite mret_run. unfold with_new. cbn [slices journal parse_spec].
  rewrite insert_insert_eq.
  destruct (g_strsplit_pieces "," text) as [->|[-> ->]]; reflexivity.
Qed.

(** *** What stays frozen *)

Lemma since_app s s' evs : journal s' = journal s ++ evs → since s s' = evs.
Proof. intros E. unfold since. rewrite E. apply drop_app_length. Qed.

Lemma keeps_refl o l s : keeps_frozen o l s s.
Proof. exists []. split; [by rewrite app_nil_r | done]. Qed.

Lemma keeps_trans o l s1 s2 s3 :
  keeps_frozen o l s1 s2 → keeps_frozen o l s2 s3 → keeps_frozen o l s1 s3.
Proof.
  intros (e1 & J1 & K1) (e2 & J2 & K2). exists (e1 ++ e2). split.
  - by rewrite J2, J1, app_assoc.
  - intros N F. apply K2, K1; [set_solver | set_solver | done].
Qed.

Lemma keeps_logged o l s s' evs :
  slices s' = slices s → journal s' = journal s ++ evs → keeps_frozen o l s s'.
Proof.
  intros S J. exists evs. split; [done|]. intros _ (o' & L & F). exists o'.
  by rewrite S.
Qed.

Lemma keeps_insert o l s l' o2 evs :
  (l' = l → frozen_as o l s →
   immutable o2 = TRUE ∧ dimensions o2 = dimensions o) →
  keeps_frozen o l s
    {| slices := <[l' := o2]> (slices s); journal := journal s ++ evs |}.
Proof.
  intros C. exists evs. split; [done|]. intros _ F.
  destruct (decide (l' = l)) as [->|N].
  - exists o2. cbn [slices]. rewrite lookup_insert_eq. split; [done|]. by apply C.
  - destruct F as (o' & L & F). exists o'. cbn [slices].
    by rewrite lookup_insert_ne.
Qed.

Lemma j_semantics_new_shape template s :
  ∃ row evs,
    j_semantics_new template s
    = Some (Some (fresh_slice s),
            {| slices := <[fresh_slice s := row]> (slices s);
               journal := journal s ++ SliceNew (fresh_slice s) :: evs |})
    ∧ (∀ l, SliceFree l ∉ evs) ∧ immutable row = FALSE ∧ ref_count row = 1.
Proof.
  destruct (decide (template ∈ template_labels)) as [In|Out].
  - unfold template_labels in In.
    repeat (apply elem_of_cons in In as [->|In]); [| | |by apply elem_of_nil in In].
    + exists default_row, []. rewrite j_semantics_new_default.
      repeat split. intros l. apply not_elem_of_nil.
    + exists posix_row, []. rewrite j_semantics_new_posix.
      repeat split. intros l. apply not_elem_of_nil.
    + exists checkpoint_row, []. rewrite j_semantics_new_checkpoint.
      repeat split. intros l. apply not_elem_of_nil.
  - exists default_row, [Logged (g_warning "code should not be reached")].
    rewrite j_semantics_new_other by done. unfold with_new. cbn [slices journal].
    rewrite <- app_assoc. repeat split.
    intros l E%list_elem_of_singleton. discriminate E.
Qed.

Lemma fresh_not_frozen o s : ¬ frozen_as o (fresh_slice s) s.
Proof. intros (o' & L & _). by rewrite fresh_slice_unused in L. Qed.

Lemma perform_keeps o l c s s' :
  perform c s = Some ((), s') → keeps_frozen o l s s'.
Proof.
  destruct c as [template|template_str semantics_str|p|p|p key value|p key];
    cbn [perform]; rewrite ?bind_run.
  - destruct (j_semantics_new_shape template s) as (row & evs & -> & _).
    rewrite mret_run. intros [= <-]. apply keeps_insert.
    intros <- F. by apply fresh_not_frozen in F.
  - rewrite j_semantics_parse_refines, mret_run. intros [= <-].
    apply keeps_insert. intros <- F. by apply fresh_not_frozen in F.
  - destruct p as [l'|].
    2: { rewrite j_semantics_ref_null, mret_run. intros [= <-].
         by eapply keeps_logged. }
    destruct (slices s !! l') as [o'|] eqn:L.
    2: { by rewrite (proj1 (dangling l' s L)). }
    rewrite (j_semantics_ref_live l' o') by done. rewrite mret_run. intros [= <-].
    rewrite <- (app_nil_r (journal s)). apply keeps_insert.
    intros -> (o2 & L2 & I & D). rewrite L in L2. by injection L2 as ->.
  - destruct p as [l'|].
    2: { rewrite j_semantics_unref_null. intros [= <-]. by eapply keeps_logged. }
    destruct (slices s !! l') as [o'|] eqn:L.
    2: { by rewrite (proj1 (proj2 (dangling l' s L))). }
    rewrite (j_semantics_unref_live l' o') by done.
    destruct (wrap_gint (ref_count o' - 1) =? 0); intros [= <-].
    + exists [SliceFree l']. split; [done|]. intros N (o2 & L2 & F).
      exists o2. cbn [slices]. rewrite lookup_delete_ne; [done|].
      intros ->. by apply N, list_elem_of_singleton.
    + rewrite <- (app_nil_r (journal s)). apply keeps_insert.
      intros -> (o2 & L2 & I & D). rewrite L in L2. by injection L2 as ->.
  - destruct p as [l'|].
    2: { rewrite j_semantics_set_null. intros [= <-]. by eapply keeps_logged. }
    destruct (slices s !! l') as [o'|] eqn:L.
    2: { by rewrite (proj1 (proj2 (proj2 (dangling l' s L)))). }
    destruct (immutable o') eqn:I.
    { rewrite (j_semantics_set_frozen l' o') by done. intros [= <-].
      by eapply keeps_logged. }
    destruct (decide (key ∈ type_labels)) as [In|Out].
    + apply key_inside in In as [d ->].
      rewrite (j_semantics_set_mutable l' o') by done. intros [= <-].
      rewrite <- (app_nil_r (journal s)). apply keeps_insert.
      intros -> (o2 & L2 & I2 & _). rewrite L in L2. injection L2 as ->.
      by rewrite I in I2.
    + rewrite (j_semantics_set_unknown_key l' o') by done. intros [= <-].
      by eapply keeps_logged.
  - destruct p as [l'|].
    2: { rewrite j_semantics_get_null, mret_run. intros [= <-].
         by eapply keeps_logged. }
    destruct (slices s !! l') as [o'|] eqn:L.
    2: { by rewrite (proj2 (proj2 (proj2 (dangling l' s L)))). }
    destruct (decide (key ∈ type_labels)) as [In|Out].
    + apply key_inside in In as [d ->].
      rewrite (j_semantics_get_live l' o') by done. rewrite mret_run.
      intros [= <-]. apply keeps_refl.
    + rewrite (j_semantics_get_unknown_key l' o') by done. rewrite mret_run.
      intros [= <-]. by eapply keeps_logged.
Qed.

Lemma perform_all_keeps o l cs : ∀ s s',
  perform_all cs s = Some ((), s') → keeps_frozen o l s s'.
Proof.
  induction cs as [|c cs IH]; intros s s'; cbn [perform_all].
  - rewrite mret_run. intros [= <-]. apply keeps_refl.
  - intros R. apply bind_inv in R as ([] & s1 & R1 & R2).
    eapply keeps_trans; [by eapply perform_keeps | by apply IH].
Qed.

Lemma project_dimensions d o o' :
  dimensions o' = dimensions o → project d o' = project d o.
Proof. unfold dimensions. intros [= ? ? ? ? ? ?]. by destruct d. Qed.

Lemma get_value_frozen l o o' key s s' :
  slices s !! l = Some o → slices s' !! l = Some o' →
  dimensions o' = dimensions o →
  fst <$> j_semantics_get (Some l) key s' = fst <$> j_semantics_get (Some l) key s.
Proof.
  intros L L' D. destruct (decide (key ∈ type_labels)) as [In|Out].
  - apply key_inside in In as [d ->].
    rewrite (j_semantics_get_live l o'), (j_semantics_get_live l o) by done.
    cbn. by rewrite (project_dimensions d o o').
  - by rewrite (j_semantics_get_unknown_key l o'),
      (j_semantics_get_unknown_key l o) by done.
Qed.

(** *** Templates *)

(** C1: for each of the templates Default, Posix and Checkpoint,
    [j_semantics_new] returns a fresh descriptor whose six dimensions
    (atomicity, concurrency, consistency, persistency, safety, security) are
    the row of the table of section 4.1, with [ref_count = 1] and mutable;
    Posix differs from Default only in atomicity, Checkpoint differs from
    Default in concurrency, consistency and security. *)
Theorem j_semantics_new_table (s : State) :
  creates J_SEMANTICS_TEMPLATE_DEFAULT
    [J_SEMANTICS_ATOMICITY_NONE; J_SEMANTICS_CONCURRENCY_OVERLAPPING;
     J_SEMANTICS_CONSISTENCY_IMMEDIATE; J_SEMANTICS_PERSISTENCY_EVENTUAL;
     J_SEMANTICS_SAFETY_NONE; J_SEMANTICS_SECURITY_STRICT] s
  ∧ creates J_SEMANTICS_TEMPLATE_POSIX
      [J_SEMANTICS_ATOMICITY_OPERATION; J_SEMANTICS_CONCURRENCY_OVERLAPPING;
       J_SEMANTICS_CONSISTENCY_IMMEDIATE; J_SEMANTICS_PERSISTENCY_EVENTUAL;
       J_SEMANTICS_SAFETY_NONE; J_SEMANTICS_SECURITY_STRICT] s
  ∧ creates J_SEMANTICS_TEMPLATE_CHECKPOINT
      [J_SEMANTICS_ATOMICITY_NONE; J_SEMANTICS_CONCURRENCY_NON_OVERLAPPING;
       J_SEMANTICS_CONSISTENCY_EVENTUAL; J_SEMANTICS_PERSISTENCY_EVENTUAL;
       J_SEMANTICS_SAFETY_NONE; J_SEMANTICS_SECURITY_NONE] s
  ∧ J_SEMANTICS_ATOMICITY_OPERATION ≠ J_SEMANTICS_ATOMICITY_NONE
  ∧ J_SEMANTICS_CONCURRENCY_NON_OVERLAPPING ≠ J_SEMANTICS_CONCURRENCY_OVERLAPPING
  ∧ J_SEMANTICS_CONSISTENCY_EVENTUAL ≠ J_SEMANTICS_CONSISTENCY_IMMEDIATE
  ∧ J_SEMANTICS_SECURITY_NONE ≠ J_SEMANTICS_SECURITY_STRICT.
Proof.
  split; [|split; [|split]].
  - exists default_row. by rewrite j_semantics_new_default.
  - exists posix_row. by rewrite j_semantics_new_posix.
  - exists checkpoint_row. by rewrite j_semantics_new_checkpoint.
  - pose proof atomicity_distinct as A. pose proof concurrency_distinct as B.
    pose proof consistency_distinct as C. pose proof security_distinct as D.
    apply NoDup_cons in A as [_ A]. apply NoDup_cons in A as [A _].
    apply NoDup_cons in B as [B _]. apply NoDup_cons in C as [C _].
    apply NoDup_cons in D as [D _].
    repeat split; intros E; [apply A | apply B | apply C | apply D];
      rewrite E; set_solver.
Qed.

(** C8, as the code has it: a template that is none of the three is not
    refused. [j_semantics_new] logs the warning of [g_warn_if_reached] and
    returns a fresh, mutable descriptor with [ref_count = 1] that carries the
    values of the Default template. *)
Theorem j_semantics_new_unknown_template (template : gint) (s : State) :
  template ∉ template_labels →
  j_semantics_new template s
  = Some (Some (fresh_slice s),
          {| slices := <[fresh_slice s := default_row]> (slices s);
             journal := journal s
                        ++ [SliceNew (fresh_slice s);
                            Logged (g_warning "code should not be reached")] |})
  ∧ creates J_SEMANTICS_TEMPLATE_DEFAULT (dimensions default_row) s.
Proof.
  intros Out. split.
  - rewrite j_semantics_new_other by done. unfold with_new. cbn [slices journal].
    by rewrite <- app_assoc.
  - exists default_row. by rewrite j_semantics_new_default.
Qed.

(** *** Sharing and mutation *)

(** C4: once a live descriptor [l] has been shared ([j_semantics_ref]),
    whatever calls follow, as long as its slice has not been freed: every
    [j_semantics_set] on it fails the check [!semantics->immutable] and
    changes no slice, and [j_semantics_get] returns for every key what it
    returned at the moment of sharing. On a descriptor that is still mutable,
    [j_semantics_set] with one of the six keys makes [j_semantics_get] return
    the new value for that key and the old value for every other key, and
    leaves the flag, the count and all other slices alone. *)
Theorem shared_descriptor_is_frozen (l : loc) (o : JSemantics) (s : State) :
  slices s !! l = Some o →
  (∃ s1, j_semantics_ref (Some l) s = Some (Some l, s1)
     ∧ ∀ cs s2, perform_all cs s1 = Some ((), s2) → SliceFree l ∉ since s1 s2 →
         (∀ key value, ∃ s3,
            j_semantics_set (Some l) key value s2 = Some ((), s3)
            ∧ slices s3 = slices s2
            ∧ since s2 s3 = [Logged (g_critical "!semantics->immutable")])
         ∧ (∀ key, fst <$> j_semantics_get (Some l) key s2
                   = fst <$> j_semantics_get (Some l) key s)
         ∧ ∃ o2, slices s2 !! l = Some o2 ∧ immutable o2 = TRUE
                 ∧ dimensions o2 = dimensions o)
  ∧ (immutable o = FALSE → ∀ key value, key ∈ type_labels →
       ∃ s', j_semantics_set (Some l) key value s = Some ((), s')
         ∧ fst <$> j_semantics_get (Some l) key s' = Some value
         ∧ (∀ key', key' ≠ key →
              fst <$> j_semantics_get (Some l) key' s'
              = fst <$> j_semantics_get (Some l) key' s)
         ∧ (∃ o', slices s' !! l = Some o' ∧ immutable o' = FALSE
                  ∧ ref_count o' = ref_count o)
         ∧ (∀ l', l' ≠ l → slices s' !! l' = slices s !! l')
         ∧ journal s' = journal s).
Proof.
  intros L. split.
  - eexists. split; [by apply j_semantics_ref_live|].
    intros cs s2 R N.
    destruct (perform_all_keeps o l cs _ _ R) as (evs & J & K).
    rewrite (since_app _ _ _ J) in N.
    destruct (K N) as (o2 & L2 & I2 & D2).
    { eexists. cbn [slices]. rewrite lookup_insert_eq. by repeat split. }
    split; [|split].
    + intros key value. eexists. rewrite (j_semantics_set_frozen l o2) by done.
      split; [done|]. split; [done|]. by apply since_app.
    + intros key. by apply (get_value_frozen l o o2).
    + by exists o2.
  - intros I key value [d ->]%key_inside. eexists.
    rewrite (j_semantics_set_mutable l o) by done. split; [done|].
    assert (∀ d', j_semantics_get (Some l) (key_of d')
                     {| slices := <[l := assign d value o]> (slices s);
                        journal := journal s |}
                  = Some (project d' (assign d value o),
                          {| slices := <[l := assign d value o]> (slices s);
                             journal := journal s |})) as G.
    { intros d'. apply j_semantics_get_live. apply lookup_insert_eq. }
    split; [|split; [|split; [|split]]].
    + rewrite G. by destruct d.
    + intros key' N. destruct (decide (key' ∈ type_labels)) as [In|Out].
      * apply key_inside in In as [d' ->].
        rewrite G, (j_semantics_get_live l o) by done. cbn.
        destruct d, d'; try reflexivity; by destruct N.
      * rewrite (j_semantics_get_unknown_key l (assign d value o)),
          (j_semantics_get_unknown_key l o); try done.
        apply lookup_insert_eq.
    + exists (assign d value o). cbn [slices]. rewrite lookup_insert_eq.
      split; [done|]. by destruct (assign_keeps d value o) as [-> ->].
    + intros l' N. cbn [slices]. by rewrite lookup_insert_ne.
    + reflexivity.
Qed.

(** *** Reference counting *)

Lemma wrap_gint_small z : G_MININT ≤ z ≤ G_MAXINT → wrap_gint z = z.
Proof.
  unfold wrap_gint, G_MININT, G_MAXINT. intros R.
  rewrite Z.mod_small; lia.
Qed.

Lemma perform_all_app cs1 cs2 s :
  perform_all (cs1 ++ cs2) s
  = match perform_all cs1 s with
    | Some (_, s') => perform_all cs2 s'
    | None => None
    end.
Proof.
  revert s. induction cs1 as [|c cs1 IH]; intros s; [reflexivity|].
  cbn [app perform_all]. rewrite !bind_run.
  destruct (perform c s) as [[[] s']|]; [apply IH | reflexivity].
Qed.

Lemma perform_refs l n : ∀ o s,
  slices s !! l = Some o → 0 ≤ ref_count o →
  ref_count o + Z.of_nat n ≤ G_MAXINT →
  ∃ o', perform_all (replicate n (call_ref (Some l))) s
        = Some ((), {| slices := <[l := o']> (slices s); journal := journal s |})
        ∧ ref_count o' = ref_count o + Z.of_nat n
        ∧ dimensions o' = dimensions o.
Proof.
  induction n as [|n IH]; intros o s L Lo Hi.
  - exists o. cbn [replicate perform_all]. rewrite mret_run, insert_id by done.
    rewrite state_eq. split; [done|]. split; [lia | done].
  - cbn [replicate perform_all perform]. rewrite !bind_run.
    rewrite (j_semantics_ref_live l o) by done. rewrite mret_run.
    set (o1 := set_immutable TRUE _).
    assert (ref_count o1 = ref_count o + 1) as C.
    { subst o1. cbn [ref_count set_immutable set_ref_count].
      apply wrap_gint_small. unfold G_MININT, G_MAXINT in *. lia. }
    edestruct (IH o1) as (o' & -> & C' & D'); [by live|lia|lia|].
    exists o'. cbn [slices journal]. rewrite insert_insert_eq.
    split; [done|]. split; [lia | done].
Qed.

Lemma perform_unrefs l k : ∀ o s,
  slices s !! l = Some o → Z.of_nat k < ref_count o ≤ G_MAXINT →
  perform_all (replicate k (call_unref (Some l))) s
  = Some ((), {| slices := <[l := set_ref_count (ref_count o - Z.of_nat k) o]>
                             (slices s);
                 journal := journal s |}).
Proof.
  induction k as [|k IH]; intros o s L R.
  - cbn [replicate perform_all]. rewrite mret_run.
    replace (set_ref_count (ref_count o - Z.of_nat 0) o) with o
      by (destruct o; unfold set_ref_count; cbn [ref_count Z.of_nat]; f_equal; lia).
    rewrite insert_id by done. by rewrite state_eq.
  - cbn [replicate perform_all perform]. rewrite bind_run.
    rewrite (j_semantics_unref_live l o) by done.
    rewrite wrap_gint_small by (unfold G_MININT, G_MAXINT in *; lia).
    destruct (Z.eqb_spec (ref_count o - 1) 0) as [E|_]; [lia|].
    rewrite (IH (set_ref_count (ref_count o - 1) o)); cbn [slices journal].
    + rewrite insert_insert_eq. do 4 f_equal. unfold set_ref_count. cbn.
      f_equal. lia.
    + apply lookup_insert_eq.
    + cbn. lia.
Qed.

(** C7: releasing a live descriptor decrements its count and frees the slice
    exactly when the decremented count is zero. So for a descriptor created
    once and shared [N] times (with [N + 1] within the range of the 32-bit
    count), each of the first [N] releases leaves it live, with its count one
    lower and nothing freed, and release number [N + 1] frees it. *)
Theorem release_frees_at_zero (template : gint) (N : nat) (s : State) :
  Z.of_nat N < G_MAXINT →
  (∀ l o s0, slices s0 !! l = Some o →
     ∃ s', j_semantics_unref (Some l) s0 = Some ((), s')
       ∧ (wrap_gint (ref_count o - 1) = 0 →
            slices s' !! l = None ∧ since s0 s' = [SliceFree l])
       ∧ (wrap_gint (ref_count o - 1) ≠ 0 →
            slices s' !! l = Some (set_ref_count (wrap_gint (ref_count o - 1)) o)
            ∧ since s0 s' = []))
  ∧ ∃ s1,
      (j_semantics_new template
         ≫= λ d, perform_all (replicate N (call_ref d))) s = Some ((), s1)
      ∧ (∀ k, (k ≤ N)%nat →
           ∃ s2 o,
             perform_all (replicate k (call_unref (Some (fresh_slice s)))) s1
             = Some ((), s2)
             ∧ slices s2 !! fresh_slice s = Some o
             ∧ ref_count o = Z.of_nat N + 1 - Z.of_nat k
             ∧ since s1 s2 = [])
      ∧ ∃ s3,
          perform_all (replicate (S N) (call_unref (Some (fresh_slice s)))) s1
          = Some ((), s3)
          ∧ slices s3 !! fresh_slice s = None
          ∧ since s1 s3 = [SliceFree (fresh_slice s)].
Proof.
  intros Bound. split.
  - intros l o s0 L. eexists. split; [by apply j_semantics_unref_live|].
    split; intros E.
    + apply Z.eqb_eq in E. rewrite E. cbn [slices]. rewrite lookup_delete_eq.
      split; [done|]. by apply since_app.
    + apply Z.eqb_neq in E. rewrite E. cbn [slices]. rewrite lookup_insert_eq.
      split; [done|]. apply since_app. cbn [journal]. by rewrite app_nil_r.
  - rewrite bind_run.
    destruct (j_semantics_new_shape template s) as (row & evs & -> & _ & _ & C).
    set (l := fresh_slice s). set (s0 := {| slices := _; journal := _ |}).
    destruct (perform_refs l N row s0) as (o1 & -> & C1 & _);
      [by subst s0; live | lia | lia |].
    set (s1 := {| slices := _; journal := _ |}).
    assert (slices s1 !! l = Some o1) as L1 by (subst s1; live).
    eexists. split; [done|]. split.
    + intros k K. do 2 eexists. rewrite (perform_unrefs l k o1 s1) by (done || lia).
      split; [done|]. cbn [slices]. rewrite lookup_insert_eq.
      split; [done|]. split; [cbn; lia|]. apply since_app. cbn [journal].
      by rewrite app_nil_r.
    + replace (S N) with (N + 1)%nat by lia.
      rewrite replicate_add, perform_all_app.
      rewrite (perform_unrefs l N o1 s1) by (done || lia).
      cbn [replicate perform_all perform]. rewrite bind_run.
      erewrite j_semantics_unref_live by (cbn [slices]; apply lookup_insert_eq).
      cbn [ref_count set_ref_count].
      replace (ref_count o1 - Z.of_nat N - 1) with 0 by lia.
      change (wrap_gint 0 =? 0) with true. cbv iota. rewrite mret_run.
      eexists. split; [done|]. cbn [slices]. rewrite lookup_delete_eq.
      split; [done|]. by apply since_app.
Qed.

(** *** Parsing *)

Lemma with_new_inj s o o' : with_new s o = with_new s o' → o = o'.
Proof.
  intros E. apply (f_equal (λ s', slices s' !! fresh_slice s)) in E.
  cbn [with_new slices] in E. rewrite !lookup_insert_eq in E. by injection E.
Qed.

Lemma made_inj (p : pointer) s o o' :
  Some (p, with_new s o) = Some (p, with_new s o') → o = o'.
Proof. intros E. apply (with_new_inj s). congruence. Qed.

Lemma rows_apart :
  posix_row ≠ default_row ∧ checkpoint_row ≠ default_row
  ∧ posix_row ≠ checkpoint_row.
Proof.
  pose proof atomicity_distinct as A. pose proof concurrency_distinct as B.
  apply NoDup_cons in A as [_ A]. apply NoDup_cons in A as [A _].
  apply NoDup_cons in B as [B _].
  repeat split; intros E.
  - apply (f_equal atomicity) in E. cbn in E. apply A. rewrite E. set_solver.
  - apply (f_equal concurrency) in E. cbn in E. apply B. rewrite <- E. set_solver.
  - apply (f_equal atomicity) in E. cbn in E. apply A. rewrite E. set_solver.
Qed.

(** C5: for every template name and every override string,
    [j_semantics_parse] returns the template's descriptor with the tokens of
    the string (its pieces between commas) applied from left to right, where
    a token without [=] changes nothing, a token [key=value] whose key is not
    one of the six names (compared exactly, so case matters) changes nothing,
    a recognised key with an unrecognised value changes nothing, and a later
    assignment to a dimension replaces an earlier one. The two examples of
    the specification come out as stated. *)
Theorem j_semantics_parse_grammar :
  (∀ template_str text s,
     j_semantics_parse template_str (Some text) s
     = Some (Some (fresh_slice s),
             with_new s (fold_left override (pieces ","%char text)
                           (template_named template_str))))
  ∧ (∀ o token, key_value token = None → override o token = o)
  ∧ (∀ o token key value,
       key_value token = Some (key, value) →
       key ∉ ["atomicity"; "concurrency"; "consistency"; "persistency"; "safety";
              "security"]%string →
       override o token = o)
  ∧ (∀ o token key value d,
       key_value token = Some (key, value) → dimension_named key = Some d →
       value_named d value = None → override o token = o)
  ∧ (∀ o token key value d v,
       key_value token = Some (key, value) → dimension_named key = Some d →
       value_named d value = Some v → override o token = assign d v o)
  ∧ (∀ o, override o "Atomicity=batch" = o)
  ∧ (∀ o d v1 v2, assign d v2 (assign d v1 o) = assign d v2 o)
  ∧ (∀ s, j_semantics_parse (Some "posix") (Some "atomicity=batch,safety=storage") s
          = Some (Some (fresh_slice s),
                  with_new s
                    (set_safety J_SEMANTICS_SAFETY_STORAGE
                       (set_atomicity J_SEMANTICS_ATOMICITY_BATCH posix_row))))
  ∧ (∀ s, j_semantics_parse (Some "default")
            (Some "consistency=eventual,consistency=immediate") s
          = Some (Some (fresh_slice s),
                  with_new s
                    (set_consistency J_SEMANTICS_CONSISTENCY_IMMEDIATE default_row))).
Proof.
  repeat split.
  - intros. apply j_semantics_parse_refines.
  - intros o token K. unfold override. by rewrite K.
  - intros o token key value K Out. unfold override. rewrite K.
    replace (dimension_named key) with (@None Dimension); [done|].
    unfold dimension_named.
    repeat match goal with
           | |- context [String.eqb ?a ?b] =>
               destruct (String.eqb_spec a b) as [->|_]; [set_solver|]
           end.
    reflexivity.
  - intros o token key value d K D V. unfold override. by rewrite K, D, V.
  - intros o token key value d v K D V. unfold override. by rewrite K, D, V.
  - by intros [] [].
  - intros s. by rewrite j_semantics_parse_refines.
  - intros s. by rewrite j_semantics_parse_refines.
Qed.

(** C6: with no override string, [j_semantics_parse] returns what
    [j_semantics_new] returns for Posix exactly when the name is "posix",
    for Checkpoint exactly when it is "checkpoint", and for Default for every
    other name, [NULL] included, and logs nothing; so the name
    "bogus-template" gives the Default descriptor. Whatever the name and the
    overrides, the descriptor returned is mutable and has [ref_count = 1]. *)
Theorem j_semantics_parse_selects_template (s : State) :
  (∀ name, j_semantics_parse name None s
           = j_semantics_new J_SEMANTICS_TEMPLATE_POSIX s
           ↔ name = Some "posix"%string)
  ∧ (∀ name, j_semantics_parse name None s
             = j_semantics_new J_SEMANTICS_TEMPLATE_CHECKPOINT s
             ↔ name = Some "checkpoint"%string)
  ∧ (∀ name, j_semantics_parse name None s
             = j_semantics_new J_SEMANTICS_TEMPLATE_DEFAULT s
             ↔ name ≠ Some "posix"%string ∧ name ≠ Some "checkpoint"%string)
  ∧ j_semantics_parse (Some "bogus-template") None s
    = Some (Some (fresh_slice s), with_new s default_row)
  ∧ (∀ name overrides,
       ∃ o, j_semantics_parse name overrides s
            = Some (Some (fresh_slice s), with_new s o)
            ∧ immutable o = FALSE ∧ ref_count o = 1).
Proof.
  destruct rows_apart as (PD & CD & PC).
  assert (∀ name, j_semantics_parse name None s
                  = Some (Some (fresh_slice s), with_new s (template_named name)))
    as R by (intros; apply j_semantics_parse_refines).
  assert (∀ name, template_named name = posix_row ↔ name = Some "posix"%string)
    as TP.
  { intros [name|]; cbn [template_named].
    - destruct (String.eqb_spec name "posix") as [->|N]; [done|].
      destruct (String.eqb_spec name "checkpoint") as [->|N'];
        (split; [intros E; by rewrite E in * | intros [= E]; by destruct N]).
    - split; [intros E; by rewrite E in * | done]. }
  assert (∀ name, template_named name = checkpoint_row
                  ↔ name = Some "checkpoint"%string) as TC.
  { intros [name|]; cbn [template_named].
    - destruct (String.eqb_spec name "posix") as [->|N];
        [split; [by intros E | done]|].
      destruct (String.eqb_spec name "checkpoint") as [->|N']; [done|].
      split; [intros E; by rewrite E in * | intros [= E]; by destruct N'].
    - split; [intros E; by rewrite E in * | done]. }
  assert (∀ name, template_named name = default_row
                  ↔ name ≠ Some "posix"%string ∧ name ≠ Some "checkpoint"%string)
    as TD.
  { intros [name|]; cbn [template_named].
    - destruct (String.eqb_spec name "posix") as [->|N];
        [split; [by intros E | by intros [E _]]|].
      destruct (String.eqb_spec name "checkpoint") as [->|N'];
        [split; [by intros E | by intros [_ E]]|].
      split; [intros _; split; by intros [= E] | done].
    - done. }
  split; [|split; [|split; [|split]]].
  - intros name. rewrite R, j_semantics_new_posix, <- TP.
    split; [apply made_inj | by intros ->].
  - intros name. rewrite R, j_semantics_new_checkpoint, <- TC.
    split; [apply made_inj | by intros ->].
  - intros name. rewrite R, j_semantics_new_default, <- TD.
    split; [apply made_inj | by intros ->].
  - apply R.
  - intros name overrides. exists (parse_spec name overrides).
    rewrite j_semantics_parse_refines. split; [done|]. apply parse_spec_fresh.
Qed.

End Labels.

(** *** The theorems at concrete inputs, under the header [julea_header] *)

#[local] Existing Instance julea_header.

Lemma j_semantics_new_table_witness :
  creates 0 [2; 0; 0; 1; 2; 0] initial
  ∧ creates 1 [1; 0; 0; 1; 2; 0] initial
  ∧ creates 2 [2; 1; 1; 1; 2; 1] initial.
Proof.
  destruct (j_semantics_new_table (H := julea_header) initial) as (D & P & C & _).
  exact (conj D (conj P C)).
Defined.

Lemma j_semantics_parse_selects_template_witness :
  j_semantics_parse (Some "posix"%string) None initial = j_semantics_new 1 initial
  ∧ j_semantics_parse (Some "bogus-template"%string) None initial
    = j_semantics_new 0 initial.
Proof.
  destruct (j_semantics_parse_selects_template (H := julea_header) initial)
    as (P & _ & D & _).
  split.
  - by apply (P (Some "posix"%string)).
  - by apply (D (Some "bogus-template"%string)).
Defined.

Lemma shared_descriptor_is_frozen_witness :
  let s := with_new initial (default_row (H := julea_header)) in
  slices s !! 1%positive = Some default_row
  ∧ ∃ s1, j_semantics_ref (Some 1%positive) s = Some (Some 1%positive, s1)
          ∧ ∃ s3, j_semantics_set (H := julea_header) (Some 1%positive) 0 0 s1
                  = Some ((), s3)
                  ∧ slices s3 = slices s1.
Proof.
  cbv zeta.
  assert (slices (with_new initial (default_row (H := julea_header))) !! 1%positive
          = Some default_row) as L by reflexivity.
  split; [exact L|].
  destruct (shared_descriptor_is_frozen (H := julea_header) _ _ _ L)
    as [(s1 & R & F) _].
  exists s1. split; [exact R|].
  destruct (F [] s1 eq_refl) as [S _].
  - unfold since. rewrite drop_all. apply not_elem_of_nil.
  - destruct (S 0 0) as (s3 & E & Same & _). by exists s3.
Defined.

Lemma j_semantics_parse_grammar_witness :
  key_value "verbose" = None
  ∧ override (H := julea_header) default_row "verbose" = default_row.
Proof.
  split; [reflexivity|].
  exact (proj1 (proj2 (j_semantics_parse_grammar (H := julea_header)))
           default_row "verbose"%string eq_refl).
Defined.

Lemma release_frees_at_zero_witness :
  Z.of_nat 2 < G_MAXINT
  ∧ ∃ s1,
      (j_semantics_new (H := julea_header) 0
         ≫= λ d, perform_all (replicate 2 (call_ref d))) initial = Some ((), s1)
      ∧ ∃ s3,
          perform_all (H := julea_header)
            (replicate 3 (call_unref (Some (fresh_slice initial)))) s1
          = Some ((), s3)
          ∧ slices s3 !! fresh_slice initial = None
          ∧ since s1 s3 = [SliceFree (fresh_slice initial)].
Proof.
  assert (Z.of_nat 2 < G_MAXINT) as B by reflexivity.
  split; [exact B|].
  destruct (release_frees_at_zero (H := julea_header) 0 2 initial B)
    as (_ & s1 & R & _ & F).
  exists s1. split; [exact R | exact F].
Defined.

Lemma j_semantics_new_unknown_template_witness :
  (3 ∉ (template_labels : list gint))
  ∧ creates (H := julea_header) 0 (dimensions (default_row (H := julea_header)))
      initial.
Proof.
  assert (3 ∉ (template_labels : list gint)) as Out
    by (by apply (bool_decide_unpack _)).
  split; [exact Out|].
  exact (proj2 (j_semantics_new_unknown_template (H := julea_header) 3 initial Out)).
Defined.

(** Against C8 as stated: under [julea_header] the templates are 0, 1 and 2;
    [j_semantics_new 3] does not fail, and the descriptor it returns holds
    the Default row. *)
Lemma j_semantics_new_defaults_unknown_template :
  (3 ∉ (template_labels : list gint))
  ∧ j_semantics_new (H := julea_header) 3 initial
    = Some (Some 1%positive,
            {| slices := {[1%positive := default_row (H := julea_header)]};
               journal := [SliceNew 1%positive;
                           Logged (g_warning "code should not be reached")] |})
  ∧ j_semantics_new (H := julea_header) J_SEMANTICS_TEMPLATE_DEFAULT initial
    = Some (Some 1%positive,
            {| slices := {[1%positive := default_row (H := julea_header)]};
               journal := [SliceNew 1%positive] |}).
Proof.
  split; [by apply (bool_decide_unpack _)|]. split; reflexivity.
Qed.
End SemanticsProperties.

(** ** Properties of the store iterator *)

Module IteratorProperties.
Import GLib JStoreIterator.

Section Runs.
Context {W : Type} (respond : ∀ c : Call, W → result c * W).

Lemma run_bind {A B} (p : Prog A) (f : A → Prog B) (w : W) :
  run respond (prog_bind p f) w
  = match (run respond p w).1.1 with
    | Some a =>
        let out := run respond (f a) (run respond p w).1.2 in
        (out.1.1, out.1.2, (run respond p w).2 ++ out.2)
    | None => (None, (run respond p w).1.2, (run respond p w).2)
    end.
Proof.
  revert w. induction p as [a| |c k IH]; intros w; cbn [prog_bind run fst snd].
  - by destruct (run respond (f a) w) as [[? ?] ?].
  - reflexivity.
  - rewrite IH. by destruct (run respond (k _) _).1.1.
Qed.

Lemma run_call {A} (c : Call) (f : result c → M A) (s : State) (w : W) a w' tr :
  run respond (f (respond c w).1 s) (respond c w).2 = (a, w', tr) →
  run respond ((call c ≫= f) s) w = (a, w', Called c (respond c w).1 :: tr).
Proof.
  intros E.
  change (run respond (Do c (λ r, f r s)) w
          = (a, w', Called c (respond c w).1 :: tr)).
  cbn [run]. by rewrite E.
Qed.

Lemma run_ret {A} (a : A) (s : State) (w : W) :
  run respond ((mret a : M A) s) w = (Some (a, s), w, []).
Proof. reflexivity. Qed.

Lemma read_bind {A} l o (f : JStoreIterator → M A) s :
  slices s !! l = Some o → (read (Some l) ≫= f) s = f o s.
Proof.
  intros L. unfold mbind, M_bind, read. rewrite L. reflexivity.
Qed.

Lemma write_bind {A} l o g (f : () → M A) s :
  slices s !! l = Some o →
  (write (Some l) g ≫= f) s = f () (holding l (g o) s).
Proof.
  intros L. unfold mbind, M_bind, write. rewrite L. reflexivity.
Qed.

Lemma g_slice_new_bind {A} (f : pointer → M A) s :
  (g_slice_new ≫= f) s
  = f (Some (fresh_slice s))
      (holding (fresh_slice s) {| connection := NULL; store := NULL; cursor := NULL |} s).
Proof. reflexivity. Qed.

Lemma new_slice_unused (s : State) : slices s !! fresh_slice s = None.
Proof. unfold fresh_slice. apply (not_elem_of_dom (slices s)). apply is_fresh. Qed.

Lemma holding_lookup l o s : slices (holding l o s) !! l = Some o.
Proof. apply lookup_insert_eq. Qed.

Lemma holding_holding l o o' s : holding l o' (holding l o s) = holding l o' s.
Proof. unfold holding. cbn [slices journal]. by rewrite insert_insert_eq. Qed.

(** What [j_store_iterator_new] does with a store that is not [NULL]:
    its calls in order, each with the answer it got, and the iterator it
    returns, which holds the answers whatever they are. *)
Lemma j_store_iterator_new_run (st : loc) (s : State) (w : W) :
  ∃ (w' : W) (u : ()) (r c e : pointer) (ns : option string) (cur : pointer),
    run respond (j_store_iterator_new (Some st) s) w
    = (Some (Some (fresh_slice s),
             holding (fresh_slice s)
               {| connection := c; store := r; cursor := cur |} s),
       w',
       [Called j_operation_cache_flush u;
        Called (j_store_ref (Some st)) r;
        Called (j_connection_pool_pop_meta 0) c;
        Called bson_shared_empty e;
        Called (j_store_collection_collections r) ns;
        Called (mongo_find c ns e NULL 0 0 0) cur]).
Proof.
  unfold j_store_iterator_new, g_return_val_if_fail. cbn [non_null].
  do 7 eexists.
  apply run_call. rewrite g_slice_new_bind.
  apply run_call. erewrite write_bind by apply holding_lookup.
  rewrite holding_holding.
  apply run_call. erewrite write_bind by apply holding_lookup.
  rewrite holding_holding.
  apply run_call. erewrite read_bind by apply holding_lookup.
  cbn [store connection set_store set_connection].
  apply run_call. apply run_call.
  erewrite write_bind by apply holding_lookup. rewrite holding_holding.
  apply run_ret.
Qed.

(** What [j_store_iterator_free] does with a live iterator. *)
Lemma j_store_iterator_free_run (l : loc) (o : JStoreIterator) (s : State) (w : W) :
  slices s !! l = Some o →
  ∃ (w' : W) (u1 u2 u3 : ()),
    run respond (j_store_iterator_free (Some l) s) w
    = (Some ((), {| slices := delete l (slices s); journal := journal s |}),
       w',
       [Called (mongo_cursor_destroy (cursor o)) u1;
        Called (j_connection_pool_push_meta 0 (connection o)) u2;
        Called (j_store_unref (store o)) u3]).
Proof.
  intros L. unfold j_store_iterator_free, g_return_if_fail, g_return_val_if_fail.
  cbn [non_null].
  do 4 eexists.
  rewrite (read_bind l o) by done. apply run_call.
  rewrite (read_bind l o) by done. apply run_call.
  rewrite (read_bind l o) by done. apply run_call.
  unfold g_slice_free. rewrite L. reflexivity.
Qed.

Lemma run_mbind {A B} (m : M A) (f : A → M B) s w a s' w' tr :
  run respond (m s) w = (Some (a, s'), w', tr) →
  run respond ((m ≫= f) s) w
  = ((run respond (f a s') w').1.1, (run respond (f a s') w').1.2,
     tr ++ (run respond (f a s') w').2).
Proof.
  intros E. change ((m ≫= f) s) with (prog_bind (m s) (λ as', f as'.1 as'.2)).
  rewrite run_bind, E. reflexivity.
Qed.

(** C2: constructing an iterator over a store (not [NULL]) makes exactly
    one call to [j_operation_cache_flush]; it is the first call, so it comes
    before [mongo_find] opens the cursor, and every call the caller makes
    with the iterator afterwards comes later still. This holds in every
    environment, so whatever the semantics of the store. *)
Theorem j_store_iterator_new_flushes_once (st : loc) (s : State) (w : W) :
  ∃ (r c e : pointer) (ns : option string),
    calls (run respond (j_store_iterator_new (Some st) s) w).2
    = [j_operation_cache_flush; j_store_ref (Some st);
       j_connection_pool_pop_meta 0; bson_shared_empty;
       j_store_collection_collections r; mongo_find c ns e NULL 0 0 0]
    ∧ count is_flush (run respond (j_store_iterator_new (Some st) s) w).2 = 1%nat
    ∧ count is_cursor_call
        (take 5 (run respond (j_store_iterator_new (Some st) s) w).2) = 0%nat
    ∧ ∀ B (k : pointer → M B),
        ∃ later,
          calls (run respond ((j_store_iterator_new (Some st) ≫= k) s) w).2
          = calls (run respond (j_store_iterator_new (Some st) s) w).2 ++ later.
Proof.
  destruct (j_store_iterator_new_run st s w) as (w' & u & r & c & e & ns & cur & E).
  exists r, c, e, ns. rewrite E. cbn [snd]. repeat split.
  intros B k. eexists. rewrite (run_mbind _ k _ _ _ _ _ _ E). cbn [snd].
  unfold calls. by rewrite fmap_app.
Qed.

(** C3, as the code has it: after its check for a [NULL] store the
    constructor has no failure path. Whatever the pool and the driver
    answer, [NULL] included, it returns a new iterator that holds the
    answers, logs nothing, and gives nothing back: none of its calls
    destroys a cursor, pushes a connection or releases the store. *)
Theorem j_store_iterator_new_never_fails (st : loc) (s : State) (w : W) :
  ∃ (w' : W) (tr : list Event) (r c cur e : pointer) (ns : option string),
    run respond (j_store_iterator_new (Some st) s) w
    = (Some (Some (fresh_slice s),
             holding (fresh_slice s)
               {| connection := c; store := r; cursor := cur |} s),
       w', tr)
    ∧ Called (j_store_ref (Some st)) r ∈ tr
    ∧ Called (j_connection_pool_pop_meta 0) c ∈ tr
    ∧ Called (mongo_find c ns e NULL 0 0 0) cur ∈ tr
    ∧ count is_release tr = 0%nat.
Proof.
  destruct (j_store_iterator_new_run st s w) as (w' & u & r & c & e & ns & cur & E).
  exists w'. eexists. exists r, c, cur, e, ns. split; [exact E|].
  repeat split; set_solver.
Qed.

(** C9: freeing a live iterator destroys its cursor, pushes its connection
    back to slot 0 of the metadata pool and releases its store once, in this
    order, and then frees the slice. For an iterator made by
    [j_store_iterator_new], slot 0 is the slot the connection was popped from
    and the connection pushed is the one popped. *)
Theorem j_store_iterator_free_releases (l : loc) (o : JStoreIterator) (st : loc)
    (s : State) (w : W) :
  slices s !! l = Some o →
  (∃ (w' : W) (tr : list Event),
     run respond (j_store_iterator_free (Some l) s) w
     = (Some ((), {| slices := delete l (slices s); journal := journal s |}),
        w', tr)
     ∧ calls tr = [mongo_cursor_destroy (cursor o);
                   j_connection_pool_push_meta 0 (connection o);
                   j_store_unref (store o)])
  ∧ ∃ (w' : W) (u1 u2 u3 u4 : ()) (r c e cur : pointer) (ns : option string),
      run respond ((j_store_iterator_new (Some st) ≫= j_store_iterator_free) s) w
      = (Some ((), s), w',
         [Called j_operation_cache_flush u1;
          Called (j_store_ref (Some st)) r;
          Called (j_connection_pool_pop_meta 0) c;
          Called bson_shared_empty e;
          Called (j_store_collection_collections r) ns;
          Called (mongo_find c ns e NULL 0 0 0) cur;
          Called (mongo_cursor_destroy cur) u2;
          Called (j_connection_pool_push_meta 0 c) u3;
          Called (j_store_unref r) u4]).
Proof.
  intros L. split.
  - destruct (j_store_iterator_free_run l o s w L) as (w' & u1 & u2 & u3 & E).
    exists w'. eexists. split; [exact E | reflexivity].
  - destruct (j_store_iterator_new_run st s w)
      as (w1 & u1 & r & c & e & ns & cur & E1).
    destruct (j_store_iterator_free_run (fresh_slice s)
                {| connection := c; store := r; cursor := cur |}
                (holding (fresh_slice s)
                   {| connection := c; store := r; cursor := cur |} s) w1)
      as (w2 & u2 & u3 & u4 & E2); [apply holding_lookup|].
    exists w2, u1, u2, u3, u4, r, c, e, cur, ns.
    rewrite (run_mbind _ j_store_iterator_free _ _ _ _ _ _ E1), E2.
    cbn [fst snd holding slices journal app cursor connection store].
    rewrite delete_insert_eq, delete_id.
    + by destruct s.
    + apply new_slice_unused.
Qed.

End Runs.

(** Against C3 as stated. When the driver opens no cursor ([mongo_find]
    answers [NULL]), [j_store_iterator_new] still returns an iterator, not
    an error, and logs nothing; the connection it popped is not pushed back
    and the reference it took on the store is not released. The same when
    the pool has no connection either. *)
Lemma j_store_iterator_new_ignores_failure :
  run cursorless (j_store_iterator_new (Some 1%positive) initial) ()
  = (Some (Some 1%positive,
           {| slices := {[1%positive := {| connection := Some 7%positive;
                                           store := Some 1%positive;
                                           cursor := NULL |}]};
              journal := [] |}),
     (),
     [Called j_operation_cache_flush ();
      Called (j_store_ref (Some 1%positive)) (Some 1%positive);
      Called (j_connection_pool_pop_meta 0) (Some 7%positive);
      Called bson_shared_empty (Some 8%positive);
      Called (j_store_collection_collections (Some 1%positive))
        (Some "JULEA.Collections"%string);
      Called (mongo_find (Some 7%positive) (Some "JULEA.Collections"%string)
                (Some 8%positive) NULL 0 0 0) NULL])
  ∧ run failing (j_store_iterator_new (Some 1%positive) initial) ()
    = (Some (Some 1%positive,
             {| slices := {[1%positive := {| connection := NULL;
                                             store := Some 1%positive;
                                             cursor := NULL |}]};
                journal := [] |}),
       (),
       [Called j_operation_cache_flush ();
        Called (j_store_ref (Some 1%positive)) (Some 1%positive);
        Called (j_connection_pool_pop_meta 0) NULL;
        Called bson_shared_empty NULL;
        Called (j_store_collection_collections (Some 1%positive)) None;
        Called (mongo_find NULL None NULL NULL 0 0 0) NULL]).
Proof. split; reflexivity. Qed.

Lemma j_store_iterator_free_releases_witness :
  let o := {| connection := Some 7%positive; store := Some 1%positive;
              cursor := Some 9%positive |} in
  slices (holding 3%positive o initial) !! 3%positive = Some o
  ∧ ∃ (w' : ()) (tr : list Event),
      run failing (j_store_iterator_free (Some 3%positive)
                     (holding 3%positive o initial)) ()
      = (Some ((), {| slices := delete 3%positive
                                  (slices (holding 3%positive o initial));
                      journal := journal (holding 3%positive o initial) |}),
         w', tr)
      ∧ calls tr = [mongo_cursor_destroy (cursor o);
                    j_connection_pool_push_meta 0 (connection o);
                    j_store_unref (store o)].
Proof.
  cbv zeta.
  assert (slices (holding 3%positive
                    {| connection := Some 7%positive; store := Some 1%positive;
                       cursor := Some 9%positive |} initial) !! 3%positive
          = Some {| connection := Some 7%positive; store := Some 1%positive;
                    cursor := Some 9%positive |}) as L by reflexivity.
  split; [exact L|].
  exact (proj1 (j_store_iterator_free_releases failing 3%positive _ 1%positive
                  _ () L)).
Defined.

End IteratorProperties.

(** ** Both halves: [NULL] at the entry of every operation *)

Module CoreProperties.
Import GLib.

Section Guards.
Context `{JSemantics.JSemanticsHeader}.
Context {W : Type}
  (respond : ∀ c : JStoreIterator.Call, W → JStoreIterator.result c * W).
Variable MONGO_OK : gint.

(** C10: every operation that takes an object pointer checks it for [NULL]
    first. Called with [NULL] it touches no slice, calls no collaborator and
    returns its neutral value after GLib has logged the failed check:
    [j_semantics_ref] and [j_store_iterator_get] (and
    [j_store_iterator_new]) return [NULL], [j_semantics_get] returns -1,
    [j_store_iterator_next] returns [FALSE], and [j_semantics_set],
    [j_semantics_unref] and [j_store_iterator_free] do nothing. With a key
    that is none of the six, [j_semantics_get] on a live descriptor returns
    -1 as well and leaves every slice as it was. *)
Theorem null_is_guarded (d : JSemantics.State) (l : loc) (o : JSemantics.JSemantics)
    (unknown : gint) (s : JStoreIterator.State) (w : W) :
  JSemantics.slices d !! l = Some o →
  unknown ∉ JSemantics.type_labels →
  JSemantics.j_semantics_ref NULL d
  = Some (NULL, JSemantics.logging (g_critical "semantics != NULL") d)
  ∧ JSemantics.j_semantics_unref NULL d
    = Some ((), JSemantics.logging (g_critical "semantics != NULL") d)
  ∧ (∀ key value,
       JSemantics.j_semantics_set NULL key value d
       = Some ((), JSemantics.logging (g_critical "semantics != NULL") d))
  ∧ (∀ key,
       JSemantics.j_semantics_get NULL key d
       = Some (-1, JSemantics.logging (g_critical "semantics != NULL") d))
  ∧ JSemantics.j_semantics_get (Some l) unknown d
    = Some (-1, JSemantics.logging
                  (g_critical "code should not be reached") d)
  ∧ JStoreIterator.run respond (JStoreIterator.j_store_iterator_new NULL s) w
    = (Some (NULL, JStoreIterator.logged "store != NULL" s), w, [])
  ∧ JStoreIterator.run respond
      (JStoreIterator.j_store_iterator_next MONGO_OK NULL s) w
    = (Some (FALSE, JStoreIterator.logged "iterator != NULL" s), w, [])
  ∧ JStoreIterator.run respond (JStoreIterator.j_store_iterator_get NULL s) w
    = (Some (NULL, JStoreIterator.logged "iterator != NULL" s), w, [])
  ∧ JStoreIterator.run respond (JStoreIterator.j_store_iterator_free NULL s) w
    = (Some ((), JStoreIterator.logged "iterator != NULL" s), w, []).
Proof.
  intros L Out. repeat split.
  by apply (SemanticsProperties.j_semantics_get_unknown_key l o).
Qed.

End Guards.

Lemma null_is_guarded_witness :
  let d := JSemantics.with_new JSemantics.initial
             (JSemantics.default_row (H := JSemantics.julea_header)) in
  JSemantics.slices d !! 1%positive
  = Some (JSemantics.default_row (H := JSemantics.julea_header))
  ∧ (6 ∉ (JSemantics.type_labels (JSemanticsHeader := JSemantics.julea_header)))
  ∧ JSemantics.j_semantics_get (H := JSemantics.julea_header) (Some 1%positive) 6 d
    = Some (-1, JSemantics.logging
                  (g_critical "code should not be reached") d).
Proof.
  cbv zeta.
  assert (JSemantics.slices
            (JSemantics.with_new JSemantics.initial
               (JSemantics.default_row (H := JSemantics.julea_header)))
            !! 1%positive
          = Some (JSemantics.default_row (H := JSemantics.julea_header)))
    as L by reflexivity.
  assert (6 ∉ (JSemantics.type_labels (JSemanticsHeader := JSemantics.julea_header)))
    as Out by (by apply (bool_decide_unpack _)).
  split; [exact L|]. split; [exact Out|].
  exact (proj1 (proj2 (proj2 (proj2 (proj2
           (null_is_guarded (H := JSemantics.julea_header)
              JStoreIterator.failing 0 _ _ _ 6 JStoreIterator.initial () L Out)))))).
Defined.

End CoreProperties.

(** ** More about the descriptor: its parser, its count, its neighbours *)

Module SemanticsUseProperties.
Import GLib JSemantics JSemanticsUse SemanticsProperties.

Lemma pieces_app d a b : pieces d (a +:+ String d b) = pieces d a ++ pieces d b.
Proof.
  induction a as [|x a IH].
  - change ("" +:+ String d b) with (String d b). cbn [pieces app].
    by rewrite Ascii.eqb_refl.
  - change (String x a +:+ String d b) with (String x (a +:+ String d b)).
    cbn [pieces]. rewrite IH. destruct (Ascii.eqb x d); [done|].
    destruct (pieces d a) as [|t ts] eqn:P; [|done].
    by destruct a; cbn in P; repeat case_match.
Qed.

Lemma pieces_nonempty d a : pieces d a ≠ [].
Proof. destruct a as [|x a]; cbn [pieces]; [done|]. by repeat case_match. Qed.

Lemma wrap_gint_add a b : wrap_gint (wrap_gint a + b) = wrap_gint (a + b).
Proof.
  unfold wrap_gint.
  replace ((a + 2 ^ 31) mod 2 ^ 32 - 2 ^ 31 + b + 2 ^ 31)
    with ((a + 2 ^ 31) mod 2 ^ 32 + b) by lia.
  rewrite Z.add_mod_idemp_l by lia. do 2 f_equal. lia.
Qed.

Lemma wrap_gint_sub a b : wrap_gint (wrap_gint a - b) = wrap_gint (a - b).
Proof.
  replace (wrap_gint a - b) with (wrap_gint a + - b) by lia.
  rewrite wrap_gint_add. reflexivity.
Qed.

Section Header.
Context `{JSemanticsHeader}.

Lemma fold_override_app la lb o :
  fold_left override (la ++ lb) o = fold_left override lb (fold_left override la o).
Proof. apply fold_left_app. Qed.

Lemma override_empty o : override o "" = o.
Proof. reflexivity. Qed.

Lemma override_shape token :
  (∀ o, override o token = o)
  ∨ ∃ d v, names token = Some d ∧ ∀ o, override o token = assign d v o.
Proof.
  unfold override, names. destruct (key_value token) as [[key value]|]; [|by left].
  destruct (dimension_named key) as [d|]; [|by left].
  destruct (value_named d value) as [v|]; [|by left].
  right. by exists d, v.
Qed.

Lemma assign_comm d d' v v' o :
  d ≠ d' → assign d v (assign d' v' o) = assign d' v' (assign d v o).
Proof. intros N. by destruct d, d'. Qed.

Lemma override_comm x y o :
  (∀ d, names x = Some d → names y ≠ Some d) →
  override (override o x) y = override (override o y) x.
Proof.
  intros D.
  destruct (override_shape x) as [X|(d & v & Nx & X)]; [by rewrite !X|].
  destruct (override_shape y) as [Y|(d' & v' & Ny & Y)]; [by rewrite !Y|].
  rewrite !X, !Y. apply assign_comm. intros <-. by apply (D d').
Qed.

Lemma fold_override_past x l : ∀ o,
  (∀ y, y ∈ l → ∀ d, names x = Some d → names y ≠ Some d) →
  fold_left override l (override o x) = override (fold_left override l o) x.
Proof.
  induction l as [|y l IH]; intros o D; cbn [fold_left]; [done|].
  rewrite (override_comm x y); [|apply D; by left]. apply IH.
  intros z Z. apply D. by right.
Qed.

Lemma fold_override_swap la lb : ∀ o,
  (∀ x y, x ∈ la → y ∈ lb → ∀ d, names x = Some d → names y ≠ Some d) →
  fold_left override (la ++ lb) o = fold_left override (lb ++ la) o.
Proof.
  induction la as [|x la IH]; intros o D.
  - by rewrite app_nil_r.
  - cbn [app fold_left].
    rewrite IH; [|intros x' y X Y; apply D; [by right | done]].
    rewrite !fold_left_app. cbn [fold_left]. f_equal.
    apply fold_override_past. intros y Y. apply D; [by left | done].
Qed.

Lemma override_in_enumerations o token :
  in_enumerations o → in_enumerations (override o token).
Proof.
  intros E. destruct (override_shape token) as [->|(d & v & _ & _)]; [done|].
  unfold override. destruct (key_value token) as [[key value]|]; [|done].
  destruct (dimension_named key) as [d'|]; [|done].
  destruct (value_named d' value) as [v'|] eqn:V; [|done].
  destruct E as (E1 & E2 & E3 & E4 & E5 & E6).
  destruct d'; cbn [value_named] in V;
    repeat match type of V with
           | context [String.eqb ?a ?b] => destruct (String.eqb a b)
           end;
    try discriminate V; injection V as <-;
    repeat split; try assumption; cbn;
    repeat first [apply list_elem_of_here | apply list_elem_of_further].
Qed.

Lemma template_in_enumerations template_name :
  in_enumerations (template_named template_name).
Proof.
  unfold template_named.
  repeat case_match; repeat split; cbn;
    repeat first [apply list_elem_of_here | apply list_elem_of_further].
Qed.

(** X1: whatever the template name and the override string, every dimension
    of the descriptor [j_semantics_parse] returns holds an enumerator of that
    dimension: text never puts a stray integer into a descriptor. *)
Theorem j_semantics_parse_in_enumerations template_str semantics_str s :
  ∃ o, j_semantics_parse template_str semantics_str s
       = Some (Some (fresh_slice s), with_new s o)
       ∧ in_enumerations o.
Proof.
  eexists. split; [apply j_semantics_parse_refines|].
  unfold parse_spec. destruct semantics_str as [text|];
    [|apply template_in_enumerations].
  generalize (template_in_enumerations template_str).
  generalize (template_named template_str).
  induction (pieces "," text) as [|token l IH]; intros o E; [done|].
  cbn [fold_left]. by apply IH, override_in_enumerations.
Qed.

(** X2: an empty override string is the same as none, and a comma at the end
    or at the start of the string changes nothing. *)
Theorem j_semantics_parse_empty_tokens template_str text s :
  j_semantics_parse template_str (Some "") s = j_semantics_parse template_str None s
  ∧ j_semantics_parse template_str (Some (text +:+ ",")) s
    = j_semantics_parse template_str (Some text) s
  ∧ j_semantics_parse template_str (Some ("," +:+ text)) s
    = j_semantics_parse template_str (Some text) s.
Proof.
  rewrite !j_semantics_parse_refines. unfold parse_spec.
  split; [reflexivity|]. split.
  - change (text +:+ ",") with (text +:+ String "," "").
    by rewrite pieces_app, fold_left_app.
  - change ("," +:+ text) with ("" +:+ String "," text).
    by rewrite pieces_app.
Qed.

(** X3: overrides compose. Parsing [a,b] is parsing [a] and then running the
    parser's loop over the tokens of [b] on the descriptor obtained. *)
Theorem j_semantics_parse_appended template_str a b s :
  j_semantics_parse template_str (Some (a +:+ "," +:+ b)) s
  = (d ← j_semantics_parse template_str (Some a);
     parse_parts d (g_strsplit b ",");;
     mret d) s.
Proof.
  rewrite bind_run, !j_semantics_parse_refines. cbv beta iota.
  rewrite bind_run.
  erewrite parse_parts_live;
    [|by live | apply (parse_spec_fresh template_str (Some a))].
  rewrite mret_run. unfold with_new, parse_spec. cbn [slices journal].
  rewrite insert_insert_eq.
  change (a +:+ "," +:+ b) with (a +:+ String "," b).
  rewrite pieces_app, fold_left_app.
  destruct (g_strsplit_pieces "," b) as [->|[-> ->]]; reflexivity.
Qed.

(** X4: two override strings that name no dimension in common can be given
    in either order. *)
Theorem j_semantics_parse_order template_str a b s :
  (∀ d, d ∈ named a → d ∉ named b) →
  j_semantics_parse template_str (Some (a +:+ "," +:+ b)) s
  = j_semantics_parse template_str (Some (b +:+ "," +:+ a)) s.
Proof.
  intros D. rewrite !j_semantics_parse_refines. unfold parse_spec.
  change (a +:+ "," +:+ b) with (a +:+ String "," b).
  change (b +:+ "," +:+ a) with (b +:+ String "," a).
  rewrite !pieces_app. do 3 f_equal. apply fold_override_swap.
  intros x y X Y d Nx Ny. apply (D d); unfold named; apply list_elem_of_omap; eauto.
Qed.

(** X5: sharing a live descriptor and releasing it again brings the count
    back to what it was, also across the wrap of the 32-bit count, frees
    nothing and logs nothing; what remains of the pair is that the descriptor
    is now immutable. (A count of 0 is excluded: no live descriptor has it.) *)
Theorem j_semantics_ref_unref l o s :
  slices s !! l = Some o →
  G_MININT ≤ ref_count o ≤ G_MAXINT → ref_count o ≠ 0 →
  (j_semantics_ref (Some l) ≫= j_semantics_unref) s
  = Some ((), {| slices := <[l := set_immutable TRUE o]> (slices s);
                 journal := journal s |}).
Proof.
  intros L R N. rewrite bind_run, (j_semantics_ref_live l o) by done.
  cbv beta iota. erewrite j_semantics_unref_live by live.
  cbn [ref_count set_immutable set_ref_count].
  rewrite wrap_gint_sub. replace (ref_count o + 1 - 1) with (ref_count o) by lia.
  rewrite wrap_gint_small by done.
  destruct (Z.eqb_spec (ref_count o) 0) as [E|_]; [done|].
  cbn [slices journal]. rewrite insert_insert_eq. by destruct o.
Qed.

(** X6: a call never touches a live descriptor it is not made on. After any
    call of the interface, a descriptor other than the call's own is still
    live and still holds what it held; and the only call after which a live
    descriptor is gone is [j_semantics_unref] on that descriptor. *)
Theorem other_descriptors_untouched c l o s s' :
  perform c s = Some ((), s') → slices s !! l = Some o →
  (target c ≠ Some l → slices s' !! l = Some o)
  ∧ (slices s' !! l = None → c = call_unref (Some l)).
Proof.
  intros P L.
  assert (fresh_slice s ≠ l) as F.
  { intros <-. by rewrite fresh_slice_unused in L. }
  destruct c as [template|template_str semantics_str|p|p|p key value|p key];
    cbn [perform target] in *; rewrite ?bind_run in P.
  - destruct (j_semantics_new_shape template s) as (row & evs & E & _).
    rewrite E, mret_run in P. injection P as <-. cbn [slices].
    rewrite lookup_insert_ne by done. by rewrite L.
  - rewrite j_semantics_parse_refines, mret_run in P. injection P as <-.
    cbn [slices with_new]. rewrite lookup_insert_ne by done. by rewrite L.
  - destruct p as [l'|].
    2: { rewrite j_semantics_ref_null, mret_run in P. injection P as <-.
         cbn [slices]. by rewrite L. }
    destruct (slices s !! l') as [o'|] eqn:L'.
    2: { by rewrite (proj1 (dangling l' s L')) in P. }
    rewrite (j_semantics_ref_live l' o'), mret_run in P by done.
    injection P as <-. cbn [slices].
    destruct (decide (l' = l)) as [->|N].
    + rewrite lookup_insert_eq. by split.
    + rewrite lookup_insert_ne by done. by rewrite L.
  - destruct p as [l'|].
    2: { rewrite j_semantics_unref_null in P. injection P as <-.
         cbn [slices]. by rewrite L. }
    destruct (slices s !! l') as [o'|] eqn:L'.
    2: { by rewrite (proj1 (proj2 (dangling l' s L'))) in P. }
    rewrite (j_semantics_unref_live l' o') in P by done.
    destruct (decide (l' = l)) as [->|N]; [split; [done | by intros _]|].
    destruct (wrap_gint (ref_count o' - 1) =? 0); injection P as <-; cbn [slices].
    + rewrite lookup_delete_ne by done. by rewrite L.
    + rewrite lookup_insert_ne by done. by rewrite L.
  - destruct p as [l'|].
    2: { rewrite j_semantics_set_null in P. injection P as <-.
         cbn [slices]. by rewrite L. }
    destruct (slices s !! l') as [o'|] eqn:L'.
    2: { by rewrite (proj1 (proj2 (proj2 (dangling l' s L')))) in P. }
    destruct (immutable o') eqn:I.
    { rewrite (j_semantics_set_frozen l' o') in P by done. injection P as <-.
      cbn [slices]. by rewrite L. }
    destruct (decide (key ∈ type_labels)) as [In|Out].
    + apply key_inside in In as [d ->].
      rewrite (j_semantics_set_mutable l' o') in P by done. injection P as <-.
      cbn [slices]. destruct (decide (l' = l)) as [->|N].
      * rewrite lookup_insert_eq. by split.
      * rewrite lookup_insert_ne by done. by rewrite L.
    + rewrite (j_semantics_set_unknown_key l' o') in P by done.
      injection P as <-. cbn [slices]. by rewrite L.
  - destruct p as [l'|].
    2: { rewrite j_semantics_get_null, mret_run in P. injection P as <-.
         cbn [slices]. by rewrite L. }
    destruct (slices s !! l') as [o'|] eqn:L'.
    2: { by rewrite (proj2 (proj2 (proj2 (dangling l' s L')))) in P. }
    destruct (decide (key ∈ type_labels)) as [In|Out].
    + apply key_inside in In as [d ->].
      rewrite (j_semantics_get_live l' o'), mret_run in P by done.
      injection P as <-. by rewrite L.
    + rewrite (j_semantics_get_unknown_key l' o'), mret_run in P by done.
      injection P as <-. cbn [slices]. by rewrite L.
Qed.

(** X7: on a live, mutable descriptor, writing back what [j_semantics_get]
    returned for one of the six keys changes nothing at all; of two
    [j_semantics_set] on the same key the second alone decides the result;
    and a [j_semantics_set] with a key that is none of the six changes no
    slice and logs the warning of [g_warn_if_reached]. *)
Theorem j_semantics_set_round_trip l o key unknown v1 v2 s :
  slices s !! l = Some o → immutable o = FALSE →
  key ∈ type_labels → unknown ∉ type_labels →
  (j_semantics_get (Some l) key ≫= j_semantics_set (Some l) key) s = Some ((), s)
  ∧ (j_semantics_set (Some l) key v1 ≫= λ _, j_semantics_set (Some l) key v2) s
    = j_semantics_set (Some l) key v2 s
  ∧ j_semantics_set (Some l) unknown v1 s
    = Some ((), logging (g_warning "code should not be reached") s).
Proof.
  intros L I [d ->]%key_inside Out. split; [|split].
  - rewrite bind_run, (j_semantics_get_live l o) by done. cbv beta iota.
    rewrite (j_semantics_set_mutable l o) by done.
    replace (assign d (project d o) o) with o by (by destruct d, o).
    rewrite insert_id by done. by rewrite state_eq.
  - rewrite bind_run, (j_semantics_set_mutable l o d v1 s) by done.
    cbv beta iota.
    rewrite (j_semantics_set_mutable l (assign d v1 o) d v2);
      [|by live | by rewrite (proj1 (assign_keeps d v1 o))].
    rewrite (j_semantics_set_mutable l o d v2 s) by done.
    cbn [slices journal]. rewrite insert_insert_eq. by destruct d.
  - by apply (j_semantics_set_unknown_key l o).
Qed.

End Header.

#[local] Existing Instance julea_header.

Lemma j_semantics_parse_order_witness :
  (∀ d, d ∈ named "atomicity=batch" → d ∉ named "safety=storage")
  ∧ j_semantics_parse (Some "posix"%string)
      (Some "atomicity=batch,safety=storage"%string) initial
    = j_semantics_parse (Some "posix"%string)
        (Some "safety=storage,atomicity=batch"%string) initial.
Proof.
  assert (∀ d, d ∈ named "atomicity=batch" → d ∉ named "safety=storage") as D.
  { change (named "atomicity=batch") with [Atomicity].
    change (named "safety=storage") with [Safety].
    intros d ->%list_elem_of_singleton E%list_elem_of_singleton. discriminate E. }
  split; [exact D|].
  exact (j_semantics_parse_order (Some "posix"%string) "atomicity=batch"
           "safety=storage" initial D).
Defined.

Lemma j_semantics_ref_unref_witness :
  slices (with_new initial default_row) !! 1%positive = Some default_row
  ∧ (j_semantics_ref (Some 1%positive) ≫= j_semantics_unref)
      (with_new initial default_row)
    = Some ((), {| slices := <[1%positive := set_immutable TRUE default_row]>
                               (slices (with_new initial default_row));
                   journal := journal (with_new initial default_row) |}).
Proof.
  assert (slices (with_new initial default_row) !! 1%positive = Some default_row)
    as L by reflexivity.
  split; [exact L|].
  apply (j_semantics_ref_unref 1%positive default_row _ L).
  - unfold G_MININT, G_MAXINT. cbn. lia.
  - cbn. lia.
Defined.

Lemma other_descriptors_untouched_witness :
  let s := with_new (with_new initial default_row) posix_row in
  let s' := {| slices := <[2%positive := set_atomicity 0 posix_row]> (slices s);
               journal := journal s |} in
  perform (call_set (Some 2%positive) 0 0) s = Some ((), s')
  ∧ slices s !! 1%positive = Some default_row
  ∧ slices s' !! 1%positive = Some default_row.
Proof.
  cbv zeta.
  assert (perform (call_set (Some 2%positive) 0 0)
            (with_new (with_new initial default_row) posix_row)
          = Some ((), {| slices := <[2%positive := set_atomicity 0 posix_row]>
                                     (slices (with_new (with_new initial default_row)
                                                posix_row));
                         journal := journal (with_new (with_new initial default_row)
                                               posix_row) |})) as P by reflexivity.
  assert (slices (with_new (with_new initial default_row) posix_row) !! 1%positive
          = Some default_row) as L by reflexivity.
  split; [exact P|]. split; [exact L|].
  apply (other_descriptors_untouched _ _ _ _ _ P L). cbn. discriminate.
Defined.

Lemma j_semantics_set_round_trip_witness :
  slices (with_new initial default_row) !! 1%positive = Some default_row
  ∧ (j_semantics_get (Some 1%positive) 0 ≫= j_semantics_set (Some 1%positive) 0)
      (with_new initial default_row)
    = Some ((), with_new initial default_row).
Proof.
  assert (slices (with_new initial default_row) !! 1%positive = Some default_row)
    as L by reflexivity.
  split; [exact L|].
  apply (j_semantics_set_round_trip 1%positive default_row 0 6 0 0 _ L eq_refl);
    by apply (bool_decide_unpack _).
Defined.

End SemanticsUseProperties.

(** ** More about the iterator: a whole session *)

Module IteratorUseProperties.
Import GLib JStoreIterator JStoreIteratorUse IteratorProperties.

Section Sessions.
Context {W : Type} (respond : ∀ c : Call, W → result c * W).
Variable MONGO_OK : gint.

Lemma j_store_iterator_next_run l o s w :
  slices s !! l = Some o →
  run respond (j_store_iterator_next MONGO_OK (Some l) s) w
  = (Some ((respond (mongo_cursor_next (cursor o)) w).1 =? MONGO_OK, s),
     (respond (mongo_cursor_next (cursor o)) w).2,
     [Called (mongo_cursor_next (cursor o))
        (respond (mongo_cursor_next (cursor o)) w).1]).
Proof.
  intros L. unfold j_store_iterator_next, g_return_val_if_fail. cbn [non_null].
  rewrite (read_bind l o) by done. by apply run_call.
Qed.

Lemma j_store_iterator_get_run l o s w :
  slices s !! l = Some o →
  ∃ (w' : W) (b collection : pointer),
    run respond (j_store_iterator_get (Some l) s) w
    = (Some (collection, s), w',
       [Called (mongo_cursor_bson (cursor o)) b;
        Called (j_collection_new_from_bson (store o) b) collection]).
Proof.
  intros L. unfold j_store_iterator_get, g_return_val_if_fail. cbn [non_null].
  do 3 eexists. rewrite (read_bind l o) by done.
  apply run_call. apply run_call. apply run_ret.
Qed.

Lemma run_then {A B} (m : M A) (f : A → M B) s w a s' w' tr b s'' w'' tr' :
  run respond (m s) w = (Some (a, s'), w', tr) →
  run respond (f a s') w' = (Some (b, s''), w'', tr') →
  run respond ((m ≫= f) s) w = (Some (b, s''), w'', tr ++ tr').
Proof.
  intros E1 E2. rewrite (run_mbind respond m f _ _ _ _ _ _ E1). by rewrite E2.
Qed.

Lemma use_run l o u s w :
  slices s !! l = Some o →
  ∃ (w' : W) (tr : list Event),
    run respond (use MONGO_OK (Some l) u s) w = (Some ((), s), w', tr)
    ∧ Forall (λ ev, traverses (cursor o) (store o) (callee ev)) tr
    ∧ count is_next tr = (if u is use_next then 1 else 0)%nat.
Proof.
  intros L. destruct u; cbn [use].
  - do 2 eexists. split.
    + eapply run_then; [by apply j_store_iterator_next_run | apply run_ret].
    + split; [by repeat constructor | reflexivity].
  - destruct (j_store_iterator_get_run l o s w L) as (w' & b & col & E).
    do 2 eexists. split.
    + eapply run_then; [exact E | apply run_ret].
    + split; [by repeat constructor | reflexivity].
Qed.

Lemma use_all_run l o us : ∀ s w,
  slices s !! l = Some o →
  ∃ (w' : W) (tr : list Event),
    run respond (use_all MONGO_OK (Some l) us s) w = (Some ((), s), w', tr)
    ∧ Forall (λ ev, traverses (cursor o) (store o) (callee ev)) tr
    ∧ count is_next tr = length (List.filter (λ u, if u is use_next then true else false) us).
Proof.
  induction us as [|u us IH]; intros s w L; cbn [use_all].
  - exists w, []. split; [apply run_ret|]. by split.
  - destruct (use_run l o u s w L) as (w1 & tr1 & E1 & F1 & C1).
    destruct (IH s w1 L) as (w2 & tr2 & E2 & F2 & C2).
    exists w2, (tr1 ++ tr2). split; [by eapply run_then|].
    split; [by apply Forall_app|].
    unfold count, calls in *. rewrite fmap_app, List.filter_app, length_app, C1, C2.
    by destruct u.
Qed.

Lemma traversal_has_no_flush cur st tr :
  Forall (λ ev, traverses cur st (callee ev)) tr → count is_flush tr = 0%nat.
Proof.
  unfold count, calls. induction 1 as [|ev tr T _ IH]; [done|].
  cbn [fmap list_fmap List.filter]. destruct (callee ev); try done; exact IH.
Qed.

Lemma traversal_has_no_release cur st tr :
  Forall (λ ev, traverses cur st (callee ev)) tr → count is_release tr = 0%nat.
Proof.
  unfold count, calls. induction 1 as [|ev tr T _ IH]; [done|].
  cbn [fmap list_fmap List.filter]. destruct (callee ev); try done; exact IH.
Qed.

Lemma count_app p tr1 tr2 : count p (tr1 ++ tr2) = (count p tr1 + count p tr2)%nat.
Proof. unfold count, calls. by rewrite fmap_app, List.filter_app, length_app. Qed.

(** X8: a whole session (make an iterator over a store, call next and get
    any number of times in any order, free it) in any environment: the run
    is defined and leaves the heap as it found it; its calls are the six of
    the constructor, then only reads of that iterator's cursor and
    collections made for that iterator's store, then the three of the
    destructor on the same cursor, connection and store. So there is one
    flush in all, at the start, one release of each resource, at the end, and
    one [mongo_cursor_next] per call of next. *)
Theorem session_is_balanced (st : loc) (us : list Use) (s : State) (w : W) :
  ∃ (w' : W) (r c cur e : pointer) (ns : option string)
    (pre middle post : list Event),
    run respond (session MONGO_OK (Some st) us s) w
    = (Some ((), s), w', pre ++ middle ++ post)
    ∧ calls pre = [j_operation_cache_flush; j_store_ref (Some st);
                   j_connection_pool_pop_meta 0; bson_shared_empty;
                   j_store_collection_collections r;
                   mongo_find c ns e NULL 0 0 0]
    ∧ Called (j_store_ref (Some st)) r ∈ pre
    ∧ Called (j_connection_pool_pop_meta 0) c ∈ pre
    ∧ Called (mongo_find c ns e NULL 0 0 0) cur ∈ pre
    ∧ Forall (λ ev, traverses cur r (callee ev)) middle
    ∧ calls post = [mongo_cursor_destroy cur; j_connection_pool_push_meta 0 c;
                    j_store_unref r]
    ∧ count is_flush (pre ++ middle ++ post) = 1%nat
    ∧ count is_release (pre ++ middle ++ post) = 3%nat
    ∧ count is_next (pre ++ middle ++ post)
      = length (List.filter (λ u, if u is use_next then true else false) us).
Proof.
  destruct (j_store_iterator_new_run respond st s w)
    as (w1 & u1 & r & c & e & ns & cur & E1).
  set (o := {| connection := c; store := r; cursor := cur |}) in *.
  set (s1 := holding (fresh_slice s) o s) in *.
  assert (slices s1 !! fresh_slice s = Some o) as L by apply holding_lookup.
  destruct (use_all_run (fresh_slice s) o us s1 w1 L) as (w2 & mid & E2 & F & C).
  destruct (j_store_iterator_free_run respond (fresh_slice s) o s1 w2 L)
    as (w3 & u2 & u3 & u4 & E3).
  exists w3, r, c, cur, e, ns. do 3 eexists. split.
  - unfold session. eapply run_then; [exact E1|].
    eapply run_then; [exact E2|]. rewrite E3. do 2 f_equal.
    subst s1. cbn [holding slices journal].
    rewrite delete_insert_eq, delete_id by apply new_slice_unused.
    by destruct s.
  - split; [reflexivity|]. split; [by repeat constructor|].
    split; [by repeat constructor|]. split; [by repeat constructor|].
    split; [exact F|]. split; [reflexivity|].
    rewrite !count_app, (traversal_has_no_flush _ _ _ F),
      (traversal_has_no_release _ _ _ F), C.
    repeat split. cbn. lia.
Qed.

(** X9: on a live iterator, next asks the driver once for its cursor and
    returns whether the answer is [MONGO_OK]; get asks the driver for the
    record under the cursor and returns the collection made of it for the
    iterator's store. Neither changes the iterator, so next can be called
    again after it returned [FALSE] and get can be repeated. *)
Theorem next_and_get_only_read (l : loc) (o : JStoreIterator) (s : State) (w : W) :
  slices s !! l = Some o →
  (∃ (w' : W) (answer : gint),
     run respond (j_store_iterator_next MONGO_OK (Some l) s) w
     = (Some (answer =? MONGO_OK, s), w',
        [Called (mongo_cursor_next (cursor o)) answer]))
  ∧ ∃ (w' : W) (b collection : pointer),
      run respond (j_store_iterator_get (Some l) s) w
      = (Some (collection, s), w',
         [Called (mongo_cursor_bson (cursor o)) b;
          Called (j_collection_new_from_bson (store o) b) collection]).
Proof.
  intros L. split.
  - do 2 eexists. by apply j_store_iterator_next_run.
  - by apply j_store_iterator_get_run.
Qed.

End Sessions.

Lemma next_and_get_only_read_witness :
  let o := {| connection := Some 7%positive; store := Some 1%positive;
              cursor := Some 9%positive |} in
  slices (holding 3%positive o initial) !! 3%positive = Some o
  ∧ ∃ (w' : ()) (answer : gint),
      run failing (j_store_iterator_next 0 (Some 3%positive)
                     (holding 3%positive o initial)) ()
      = (Some (answer =? 0, holding 3%positive o initial), w',
         [Called (mongo_cursor_next (cursor o)) answer]).
Proof.
  cbv zeta.
  assert (slices (holding 3%positive
                    {| connection := Some 7%positive; store := Some 1%positive;
                       cursor := Some 9%positive |} initial) !! 3%positive
          = Some {| connection := Some 7%positive; store := Some 1%positive;
                    cursor := Some 9%positive |}) as L by reflexivity.
  split; [exact L|].
  exact (proj1 (next_and_get_only_read failing 0 3%positive _ _ () L)).
Defined.

End IteratorUseProperties.

(** ** Properties of the configuration tool *)

Module ConfigProperties.
Import GLib Config.

Section Splitting.
Variable g_ascii_isspace : ascii → bool.
Abbreviation g_strchug := (Config.g_strchug g_ascii_isspace).
Abbreviation g_strchomp := (Config.g_strchomp g_ascii_isspace).
Abbreviation g_strstrip := (Config.g_strstrip g_ascii_isspace).
Abbreviation string_split := (Config.string_split g_ascii_isspace).

Abbreviation trimmed := (Config.trimmed g_ascii_isspace).

Lemma g_strchug_head s :
  g_strchug s = EmptyString
  ∨ ∃ a r, g_strchug s = String a r ∧ g_ascii_isspace a = false.
Proof.
  induction s as [|a r IH]; cbn [Config.g_strchug]; [by left|].
  destruct (g_ascii_isspace a) eqn:E; [exact IH | right; eauto].
Qed.

Lemma g_strchomp_idem s : g_strchomp (g_strchomp s) = g_strchomp s.
Proof.
  induction s as [|a r IH]; cbn [Config.g_strchomp]; [done|].
  destruct (g_strchomp r) as [|b r'] eqn:E.
  - destruct (g_ascii_isspace a) eqn:S; cbn [Config.g_strchomp]; [done|].
    by rewrite S.
  - cbn [Config.g_strchomp] in IH |- *. by rewrite IH.
Qed.

Lemma g_strstrip_trimmed s : trimmed (g_strstrip s).
Proof.
  unfold Config.trimmed, Config.g_strstrip. split; [|apply g_strchomp_idem].
  destruct (g_strchug_head s) as [->|(a & r & -> & S)]; [done|].
  cbn [Config.g_strchomp].
  destruct (g_strchomp r); rewrite ?S; cbn [Config.g_strchug]; by rewrite S.
Qed.

Lemma commas_g_strchug s : (commas (g_strchug s) ≤ commas s)%nat.
Proof.
  induction s as [|a r IH]; cbn [Config.g_strchug commas]; [done|].
  destruct (g_ascii_isspace a); cbn [commas]; lia.
Qed.

Lemma commas_g_strchomp s : (commas (g_strchomp s) ≤ commas s)%nat.
Proof.
  induction s as [|a r IH]; cbn [Config.g_strchomp commas]; [done|].
  destruct (g_strchomp r) as [|b r'];
    [destruct (g_ascii_isspace a)|]; cbn [commas] in *; lia.
Qed.

Lemma commas_pieces s : ∀ x, x ∈ pieces "," s → commas x = 0%nat.
Proof.
  induction s as [|a r IH]; cbn [pieces]; intros x X.
  - by apply list_elem_of_singleton in X as ->.
  - destruct (Ascii.eqb a ",") eqn:E.
    + apply elem_of_cons in X as [->|X]; [done | by apply IH].
    + destruct (pieces "," r) as [|t ts].
      * apply list_elem_of_singleton in X as ->. cbn [commas]. by rewrite E.
      * apply elem_of_cons in X as [->|X].
        -- cbn [commas]. rewrite E. apply IH. by left.
        -- apply IH. by right.
Qed.

Lemma length_pieces s : length (pieces "," s) = S (commas s).
Proof.
  induction s as [|a r IH]; cbn [pieces commas]; [done|].
  destruct (Ascii.eqb a ","); cbn [length]; [by rewrite IH|].
  destruct (pieces "," r); cbn [length] in *; lia.
Qed.

Lemma string_split_strips s : string_split s = g_strstrip <$> g_strsplit s ",".
Proof.
  unfold Config.string_split, g_strv_length. cbv zeta.
  rewrite firstn_all, drop_all, app_nil_r.
  induction (g_strsplit s ",") as [|x l IH]; cbn [Config.strip_each]; [done|].
  by rewrite IH.
Qed.

Lemma pieces_plain x : commas x = 0%nat → pieces "," x = [x].
Proof.
  induction x as [|a r IH]; cbn [commas pieces]; [done|].
  destruct (Ascii.eqb a ","); [done|]. intros C. by rewrite IH.
Qed.

Lemma pieces_join l :
  l ≠ [] → Forall (λ x, commas x = 0%nat) l → pieces "," (join l) = l.
Proof.
  induction l as [|x l IH]; [done|]. intros _ F.
  apply Forall_cons in F as [X F]. destruct l as [|y l].
  - by apply pieces_plain.
  - change (join (x :: y :: l)) with (x +:+ String "," (join (y :: l))).
    rewrite SemanticsUseProperties.pieces_app, (pieces_plain x X), IH by done.
    reflexivity.
Qed.

(** X10: every server name [string_split] returns is free of white space at
    both ends and contains no comma, and stripping it again changes
    nothing. *)
Theorem string_split_trimmed (s x : string) :
  x ∈ string_split s → trimmed x ∧ commas x = 0%nat ∧ g_strstrip x = x.
Proof.
  rewrite string_split_strips. intros (y & -> & Y)%list_elem_of_fmap.
  pose proof (g_strstrip_trimmed y) as [T1 T2].
  split; [by split|]. split.
  - assert (commas y = 0%nat) as C.
    { destruct s; [by apply elem_of_nil in Y | by apply (commas_pieces _ _ Y)]. }
    pose proof (commas_g_strchomp (g_strchug y)).
    pose proof (commas_g_strchug y). unfold Config.g_strstrip. lia.
  - unfold Config.g_strstrip at 1. by rewrite T1, T2.
Qed.

(** X11: the empty text gives no server at all; any other text gives one
    server more than it has commas, so an empty name between two commas is
    kept as an empty string. *)
Theorem string_split_length (s : string) :
  string_split "" = []
  ∧ (s ≠ EmptyString → length (string_split s) = S (commas s)).
Proof.
  split; [reflexivity|]. intros N. rewrite string_split_strips, length_fmap.
  destruct s; [done|]. apply length_pieces.
Qed.

Lemma fmap_trimmed (l : list string) :
  Forall (λ x, trimmed x ∧ commas x = 0%nat) l → g_strstrip <$> l = l.
Proof.
  induction 1 as [|x l [[T1 T2] _] _ IH]; [done|].
  cbn [fmap list_fmap]. unfold Config.g_strstrip at 1. rewrite T1, T2. f_equal.
  exact IH.
Qed.

(** X12: a list of server names that are trimmed and free of commas comes
    back unchanged from [string_split] when it is given joined by commas
    (the list of one empty name excepted, whose text is empty). *)
Theorem string_split_join (l : list string) :
  Forall (λ x, trimmed x ∧ commas x = 0%nat) l → l ≠ [EmptyString] →
  string_split (join l) = l.
Proof.
  intros F N. rewrite string_split_strips.
  destruct l as [|x l]; [reflexivity|].
  assert (g_strsplit (join (x :: l)) "," = x :: l) as ->.
  { assert (pieces "," (join (x :: l)) = x :: l) as P.
    { apply pieces_join; [done|]. eapply Forall_impl; [exact F|]. by intros ? []. }
    destruct (join (x :: l)) eqn:J; [|exact P].
    destruct l; cbn in J; [by subst|]. by destruct x. }
  by apply fmap_trimmed.
Qed.

End Splitting.

Lemma string_split_trimmed_witness :
  ("host2"%string ∈ string_split glib_isspace " host1 , host2 ")
  ∧ trimmed glib_isspace "host2".
Proof.
  assert ("host2"%string ∈ string_split glib_isspace " host1 , host2 ") as In
    by (by apply (bool_decide_unpack _)).
  split; [exact In|].
  exact (proj1 (string_split_trimmed glib_isspace _ _ In)).
Defined.

Lemma string_split_length_witness :
  "a,,b"%string ≠ EmptyString
  ∧ length (string_split glib_isspace "a,,b") = 3%nat.
Proof.
  assert ("a,,b"%string ≠ EmptyString) as N by discriminate.
  split; [exact N|].
  exact (proj2 (string_split_length glib_isspace "a,,b") N).
Defined.

Lemma string_split_join_witness :
  Forall (λ x, trimmed glib_isspace x ∧ commas x = 0%nat) ["host1"; "host2"]%string
  ∧ string_split glib_isspace "host1,host2" = ["host1"; "host2"]%string.
Proof.
  assert (Forall (λ x, trimmed glib_isspace x ∧ commas x = 0%nat)
            ["host1"; "host2"]%string) as F by (by repeat constructor).
  split; [exact F|].
  apply (string_split_join glib_isspace ["host1"; "host2"]%string F). discriminate.
Defined.

(** *** What [main] accepts *)

Lemma backend_known (backend : option string) :
  negb (g_strcmp0 backend (Some "null") =? 0)
  && negb (g_strcmp0 backend (Some "gio") =? 0)
  && negb (g_strcmp0 backend (Some "posix") =? 0) = false
  ↔ backend ∈ [Some "null"; Some "gio"; Some "posix"]%string.
Proof.
  destruct backend as [b|].
  - rewrite !SemanticsProperties.g_strcmp0_eqb.
    destruct (String.eqb_spec b "null") as [->|N1];
      [split; [intros _; by left | done]|].
    destruct (String.eqb_spec b "gio") as [->|N2];
      [split; [intros _; right; by left | done]|].
    destruct (String.eqb_spec b "posix") as [->|N3];
      [split; [intros _; right; right; by left | done]|].
    split; [done|]. intros In.
    repeat (apply elem_of_cons in In as [[= ->]|In]); try done.
    by apply elem_of_nil in In.
  - split; [done|]. intros In.
    repeat (apply elem_of_cons in In as [[=]|In]). by apply elem_of_nil in In.
Qed.

Lemma usage_error_print (o : Options) :
  usage_error o = false → opt_print o = TRUE →
  opt_local o = negb (opt_global o).
Proof.
  unfold usage_error.
  destruct (negb _ && negb _ && negb _);
    destruct o as [[|] [|] [|] [d|] [m|] [b|] [p|]]; cbn;
    by try discriminate.
Qed.

Lemma usage_error_write (o : Options) :
  usage_error o = false → opt_print o = FALSE →
  is_Some (opt_data o) ∧ is_Some (opt_metadata o)
  ∧ (opt_local o = TRUE → opt_global o = FALSE).
Proof.
  unfold usage_error.
  destruct (negb _ && negb _ && negb _);
    destruct o as [[|] [|] [|] [d|] [m|] [b|] [p|]]; cbn;
    try discriminate; intros _ _; repeat split; eauto; discriminate.
Qed.

(** X13: what the tool accepts. [main] goes past its check of the options
    in two cases only. To print: [--print] with exactly one of [--local]
    and [--global] and none of the data, metadata, backend and path
    options. To write: no [--print], not both [--local] and [--global],
    the data, metadata and path options all given, and a backend that is
    exactly "null", "gio" or "posix". *)
Theorem usage_error_accepts (o : Options) :
  usage_error o = false
  ↔ (opt_print o = TRUE ∧ opt_local o ≠ opt_global o
     ∧ opt_data o = None ∧ opt_metadata o = None
     ∧ opt_storage_backend o = None ∧ opt_storage_path o = None)
    ∨ (opt_print o = FALSE ∧ ¬ (opt_local o = TRUE ∧ opt_global o = TRUE)
       ∧ is_Some (opt_data o) ∧ is_Some (opt_metadata o)
       ∧ is_Some (opt_storage_path o)
       ∧ opt_storage_backend o ∈ [Some "null"; Some "gio"; Some "posix"]%string).
Proof.
  unfold usage_error. rewrite <- backend_known.
  destruct (negb _ && negb _ && negb _);
    destruct o as [[|] [|] [|] [d|] [m|] [b|] [p|]]; cbn; split;
    try discriminate;
    try (intros _;
         first [ left; by repeat split
               | right; repeat split; eauto; by intros [? ?] ]);
    intros [(P & L & D & M & B & S)|(P & L & D & M & S & B)];
    try discriminate; try reflexivity;
    first [ by destruct L | by destruct D | by destruct M | by destruct S ].
Qed.

(** *** Runs of the tool *)

Section Runs.
Context {W : Type} (respond : ∀ c : Call, W → result c * W).
Variable g_ascii_isspace : ascii → bool.
Variable glib_before_2_35_1 : bool.
Abbreviation main := (Config.main g_ascii_isspace glib_before_2_35_1).
Abbreviation write_config := (Config.write_config g_ascii_isspace).
Abbreviation string_split := (Config.string_split g_ascii_isspace).
Abbreviation after_parsing := (Config.after_parsing g_ascii_isspace).
Abbreviation writes := (Config.writes g_ascii_isspace).

Lemma tool_run_bind {A B} (p : Prog A) (f : A → Prog B) (w : W) :
  run respond (p ≫= f) w
  = match (run respond p w).1.1 with
    | Some a =>
        let out := run respond (f a) (run respond p w).1.2 in
        (out.1.1, out.1.2, (run respond p w).2 ++ out.2)
    | None => (None, (run respond p w).1.2, (run respond p w).2)
    end.
Proof.
  change (p ≫= f) with (prog_bind p f).
  revert w. induction p as [a| |c k IH]; intros w; cbn [prog_bind run fst snd].
  - by destruct (run respond (f a) w) as [[? ?] ?].
  - reflexivity.
  - rewrite IH. by destruct (run respond (k _) _).1.1.
Qed.

Lemma runs_ret {A} (a : A) w : runs respond (mret a) w a w [].
Proof. reflexivity. Qed.

Lemma runs_call c w :
  runs respond (call c) w (respond c w).1 (respond c w).2
    [Called c (respond c w).1].
Proof. reflexivity. Qed.

Lemma runs_bind {A B} (p : Prog A) (f : A → Prog B) w a w1 tr1 b w2 tr2 :
  runs respond p w a w1 tr1 → runs respond (f a) w1 b w2 tr2 →
  runs respond (p ≫= f) w b w2 (tr1 ++ tr2).
Proof.
  unfold runs. intros E1 E2. rewrite tool_run_bind, E1. cbn [fst snd].
  by rewrite E2.
Qed.

(** Runs the call at the head of a program. *)
Ltac one_call :=
  match goal with
  | |- runs _ (call ?c) ?w _ _ _ => exact (runs_call c w)
  end.
Ltac head_call := eapply runs_bind; [one_call|]; cbv beta.

Lemma read_config_runs path w :
  ∃ (file : pointer) (ret : gboolean) (buf : string) (w' : W) (tr : list Event),
    runs respond (read_config (Some path)) w ret w' tr
    ∧ Called (g_file_load_contents file) (ret, buf) ∈ tr
    ∧ calls tr
      = [g_file_new_for_commandline_arg path; g_file_load_contents file]
        ++ (if ret then [g_print buf; g_free (Some buf)] else [])
        ++ [g_object_unref file].
Proof.
  unfold read_config.
  destruct (respond
              (g_file_load_contents
                 (respond (g_file_new_for_commandline_arg path) w).1)
              (respond (g_file_new_for_commandline_arg path) w).2)
    as [[ret buf] w2] eqn:E.
  exists (respond (g_file_new_for_commandline_arg path) w).1, ret, buf.
  destruct ret.
  - do 2 eexists. split; [|split].
    + head_call. head_call. rewrite E. cbn [fst snd]. cbv zeta.
      eapply runs_bind; [eapply runs_bind; [one_call | one_call]|].
      head_call. apply runs_ret.
    + cbn [app]. rewrite E. right. left.
    + cbn [app]. by rewrite E.
  - do 2 eexists. split; [|split].
    + head_call. head_call. rewrite E. cbn [fst snd]. cbv zeta.
      eapply runs_bind; [apply runs_ret|].
      head_call. apply runs_ret.
    + cbn [app]. rewrite E. right. left.
    + cbn [app]. by rewrite E.
Qed.

Ltac serialised :=
  match goal with
  | |- Called ?c (_, ?l) ∈ Called ?c ?x :: _ =>
      unify l (x.2); rewrite <- (surjective_pairing x); left
  end.

Lemma write_config_runs o data metadata path w :
  opt_data o = Some data → opt_metadata o = Some metadata →
  ∃ (key_file : pointer) (text : string) (len : Z) (ret : gboolean) (w' : W)
    (tr : list Event),
    runs respond (write_config o path) w ret w' tr
    ∧ Called g_key_file_new key_file ∈ tr
    ∧ Called (g_key_file_to_data key_file) (text, len) ∈ tr
    ∧ match path with
      | None =>
          ret = TRUE
          ∧ calls tr = fills g_ascii_isspace key_file o data metadata
                       ++ [g_print text]
                       ++ frees g_ascii_isspace key_file text data metadata
      | Some path =>
          ∃ file parent : pointer,
            Called (g_file_replace_contents file text len) ret ∈ tr
            ∧ calls tr = fills g_ascii_isspace key_file o data metadata
                         ++ replaces path file parent text len
                         ++ frees g_ascii_isspace key_file text data metadata
      end.
Proof.
  intros D M. unfold Config.write_config. rewrite D, M. cbv zeta.
  destruct path as [path|].
  - do 6 eexists. split.
    + do 6 head_call. cbv zeta.
      eapply runs_bind.
      { do 6 head_call. apply runs_ret. }
      cbv beta. do 4 head_call. apply runs_ret.
    + split; [cbn [app]; left|].
      split; [cbn [app]; do 5 right; rewrite <- surjective_pairing; left|].
      do 2 eexists. split; [|reflexivity]. cbn [app]. do 9 right. left.
  - do 6 eexists. split.
    + do 6 head_call. cbv zeta.
      eapply runs_bind.
      { head_call. apply runs_ret. }
      cbv beta. do 4 head_call. apply runs_ret.
    + split; [cbn [app]; left|].
      split; [cbn [app]; do 5 right; serialised|].
      split; reflexivity.
Qed.

Lemma main_after_parsing argv :
  main argv
  = ((if glib_before_2_35_1 then call g_type_init else mret ());;
     context ← call g_option_context_new;
     call (g_option_context_add_main_entries context entries);;
     parsed ← call (g_option_context_parse context argv);
     after_parsing context parsed).
Proof. reflexivity. Qed.

Lemma runs_call_first {A} c (f : result c → Prog A) w a w' tr :
  runs respond (f (respond c w).1) (respond c w).2 a w' tr →
  runs respond (call c ≫= f) w a w' (Called c (respond c w).1 :: tr).
Proof. intros R. exact (runs_bind _ _ _ _ _ _ _ _ _ (runs_call c w) R). Qed.

Lemma prelude_runs argv w :
  ∃ (context : pointer) (parsed : gboolean * Options * option string) (w1 : W)
    (pre : list Event),
    calls pre = prelude glib_before_2_35_1 context argv
    ∧ Called g_option_context_new context ∈ pre
    ∧ Called (g_option_context_parse context argv) parsed ∈ pre
    ∧ ∀ code w' post,
        runs respond (after_parsing context parsed) w1 code w' post →
        runs respond (main argv) w code w' (pre ++ post).
Proof.
  rewrite main_after_parsing. unfold prelude.
  set (w0 := if glib_before_2_35_1 then (respond g_type_init w).2 else w).
  set (context := (respond g_option_context_new w0).1).
  set (wa := (respond g_option_context_new w0).2).
  set (wb := (respond (g_option_context_add_main_entries context entries) wa).2).
  exists context, (respond (g_option_context_parse context argv) wb).1,
    (respond (g_option_context_parse context argv) wb).2,
    ((if glib_before_2_35_1 then [Called g_type_init (respond g_type_init w).1]
      else [])
     ++ [Called g_option_context_new context;
         Called (g_option_context_add_main_entries context entries)
           (respond (g_option_context_add_main_entries context entries) wa).1;
         Called (g_option_context_parse context argv)
           (respond (g_option_context_parse context argv) wb).1]).
  split; [by destruct glib_before_2_35_1|]. split; [|split].
  - destruct glib_before_2_35_1; cbn [app]; [right|]; left.
  - destruct glib_before_2_35_1; cbn [app]; [do 3 right | do 2 right]; left.
  - intros code w' post R. subst w0. destruct glib_before_2_35_1; cbn [app].
    + apply (runs_call_first g_type_init).
      apply (runs_call_first g_option_context_new).
      apply (runs_call_first (g_option_context_add_main_entries context entries)).
      apply (runs_call_first (g_option_context_parse context argv)).
      exact R.
    + apply (runs_bind _ _ _ _ _ [] _ _ _ (runs_ret () w)).
      apply (runs_call_first g_option_context_new).
      apply (runs_call_first (g_option_context_add_main_entries context entries)).
      apply (runs_call_first (g_option_context_parse context argv)).
      exact R.
Qed.

Lemma calls_app tr1 tr2 : calls (tr1 ++ tr2) = calls tr1 ++ calls tr2.
Proof. apply fmap_app. Qed.

Lemma after_giving_up context o error w :
  ∃ w' post, runs respond (after_parsing context (FALSE, o, error)) w 1 w' post
             ∧ gives_up context error 1 post.
Proof.
  unfold after_parsing, gives_up. cbn [fst snd negb FALSE]. cbv zeta.
  destruct error as [message|]; do 2 eexists.
  - split.
    + head_call. eapply runs_bind; [head_call; one_call|]. apply runs_ret.
    + split; reflexivity.
  - split.
    + head_call. eapply runs_bind; apply runs_ret.
    + split; reflexivity.
Qed.

Lemma after_help context o error w :
  usage_error o = true →
  ∃ w' post, runs respond (after_parsing context (TRUE, o, error)) w 1 w' post
             ∧ shows_help context 1 post.
Proof.
  intros U. unfold after_parsing, shows_help. cbn [fst snd negb TRUE]. cbv zeta.
  rewrite U. do 2 eexists. split.
  - do 4 head_call. apply runs_ret.
  - eexists. split; reflexivity.
Qed.

Lemma after_print context o error w :
  usage_error o = false → opt_print o = TRUE →
  ∃ code w' post,
    runs respond (after_parsing context (TRUE, o, error)) w code w' post
    ∧ prints context o code post.
Proof.
  intros U P.
  pose proof (usage_error_print o U P) as L.
  unfold after_parsing, prints. cbn [fst snd negb TRUE]. cbv zeta.
  rewrite U, P, L.
  destruct (opt_global o); cbn [negb].
  - set (w1 := (respond (g_option_context_free context) w).2).
    set (dirs := (respond g_get_system_config_dirs w1).1).
    set (w2 := (respond g_get_system_config_dirs w1).2).
    set (elements := match dirs with
                     | dir :: _ => [dir; "julea"; "julea"]%string
                     | [] => []
                     end).
    destruct (read_config_runs (respond (g_build_filename elements) w2).1
                (respond (g_build_filename elements) w2).2)
      as (file & ret & buf & w' & tr & R & In & C).
    do 3 eexists. split.
    + head_call. eapply runs_bind.
      { head_call. head_call. apply runs_ret. }
      cbv beta. eapply runs_bind; [exact R|]. head_call. apply runs_ret.
    + exists elements, (respond (g_build_filename elements) w2).1, file, ret, buf.
      split; [reflexivity|].
      split; [cbn [app]; do 2 right; left|].
      split; [cbn [app]; rewrite !elem_of_cons, !elem_of_app; tauto|].
      rewrite !calls_app, C. cbn [app calls fmap list_fmap callee].
      rewrite <- !app_assoc. reflexivity.
  - set (w1 := (respond (g_option_context_free context) w).2).
    set (dir := (respond g_get_user_config_dir w1).1).
    set (w2 := (respond g_get_user_config_dir w1).2).
    destruct (read_config_runs
                (respond (g_build_filename [dir; "julea"; "julea"]%string) w2).1
                (respond (g_build_filename [dir; "julea"; "julea"]%string) w2).2)
      as (file & ret & buf & w' & tr & R & In & C).
    do 3 eexists. split.
    + head_call. eapply runs_bind.
      { head_call. head_call. apply runs_ret. }
      cbv beta. eapply runs_bind; [exact R|]. head_call. apply runs_ret.
    + exists [dir; "julea"; "julea"]%string,
        (respond (g_build_filename [dir; "julea"; "julea"]%string) w2).1,
        file, ret, buf.
      split; [reflexivity|].
      split; [cbn [app]; do 2 right; left|].
      split; [cbn [app]; rewrite !elem_of_cons, !elem_of_app; tauto|].
      rewrite !calls_app, C. cbn [app calls fmap list_fmap callee].
      rewrite <- !app_assoc. reflexivity.
Qed.

Lemma after_write context o error w :
  usage_error o = false → opt_print o = FALSE →
  ∃ code w' post,
    runs respond (after_parsing context (TRUE, o, error)) w code w' post
    ∧ writes context o code post.
Proof.
  intros U P.
  destruct (usage_error_write o U P) as ([data D] & [metadata M] & L).
  unfold after_parsing, writes. cbn [fst snd negb TRUE]. cbv zeta.
  rewrite U, P.
  set (w1 := (respond (g_option_context_free context) w).2).
  destruct (opt_local o) eqn:Local; [|destruct (opt_global o) eqn:Global];
    cbn [orb].
  - set (dir := (respond g_get_user_config_dir w1).1).
    set (w2 := (respond g_get_user_config_dir w1).2).
    set (elements := [dir; "julea"; "julea"]%string).
    set (path := (respond (g_build_filename elements) w2).1).
    destruct (write_config_runs o data metadata (Some path)
                (respond (g_build_filename elements) w2).2 D M)
      as (key_file & text & len & ret & w' & tr & R & Kf & Ser & file & parent
          & In & C).
    do 3 eexists. split.
    + head_call. eapply runs_bind.
      { head_call. head_call. apply runs_ret. }
      cbv beta. eapply runs_bind; [exact R|]. head_call. apply runs_ret.
    + exists data, metadata, key_file, text, len, ret.
      split; [exact D|]. split; [exact M|]. split; [reflexivity|].
      split; [cbn [app]; rewrite !elem_of_cons, !elem_of_app; tauto|].
      split; [cbn [app]; rewrite !elem_of_cons, !elem_of_app; tauto|].
      exists elements, path, file, parent.
      split; [cbn [app]; do 2 right; left|].
      split; [cbn [app]; rewrite !elem_of_cons, !elem_of_app; tauto|].
      rewrite !calls_app, C. cbn [app calls fmap list_fmap callee].
      rewrite <- !app_assoc. reflexivity.
  - set (dirs := (respond g_get_system_config_dirs w1).1).
    set (w2 := (respond g_get_system_config_dirs w1).2).
    set (elements := match dirs with
                     | dir :: _ => [dir; "julea"; "julea"]%string
                     | [] => []
                     end).
    set (path := (respond (g_build_filename elements) w2).1).
    destruct (write_config_runs o data metadata (Some path)
                (respond (g_build_filename elements) w2).2 D M)
      as (key_file & text & len & ret & w' & tr & R & Kf & Ser & file & parent
          & In & C).
    do 3 eexists. split.
    + head_call. eapply runs_bind.
      { head_call. head_call. apply runs_ret. }
      cbv beta. eapply runs_bind; [exact R|]. head_call. apply runs_ret.
    + exists data, metadata, key_file, text, len, ret.
      split; [exact D|]. split; [exact M|]. split; [reflexivity|].
      split; [cbn [app]; rewrite !elem_of_cons, !elem_of_app; tauto|].
      split; [cbn [app]; rewrite !elem_of_cons, !elem_of_app; tauto|].
      exists elements, path, file, parent.
      split; [cbn [app]; do 2 right; left|].
      split; [cbn [app]; rewrite !elem_of_cons, !elem_of_app; tauto|].
      rewrite !calls_app, C. cbn [app calls fmap list_fmap callee].
      rewrite <- !app_assoc. reflexivity.
  - destruct (write_config_runs o data metadata None w1 D M)
      as (key_file & text & len & ret & w' & tr & R & Kf & Ser & -> & C).
    do 3 eexists. split.
    + head_call. eapply runs_bind; [apply runs_ret|].
      cbv beta. eapply runs_bind; [exact R|]. head_call. apply runs_ret.
    + exists data, metadata, key_file, text, len, TRUE.
      split; [exact D|]. split; [exact M|]. split; [reflexivity|].
      split; [cbn [app]; rewrite !elem_of_cons, !elem_of_app; tauto|].
      split; [cbn [app]; rewrite !elem_of_cons, !elem_of_app; tauto|].
      split; [reflexivity|].
      rewrite !calls_app, C. cbn [app calls fmap list_fmap callee].
      rewrite <- !app_assoc. reflexivity.
Qed.

(** Every run of [main]: the calls up to the parsing, the parser's answer,
    and one of the four ways on from there. *)
Lemma main_runs argv w :
  ∃ (context : pointer) (ok : gboolean) (o : Options) (error : option string)
    (code : gint) (w' : W) (pre post : list Event),
    runs respond (main argv) w code w' (pre ++ post)
    ∧ calls pre = prelude glib_before_2_35_1 context argv
    ∧ Called g_option_context_new context ∈ pre
    ∧ Called (g_option_context_parse context argv) (ok, o, error) ∈ pre
    ∧ if negb ok then gives_up context error code post
      else if usage_error o then shows_help context code post
      else if opt_print o then prints context o code post
      else writes context o code post.
Proof.
  destruct (prelude_runs argv w)
    as (context & [[ok o] error] & w1 & pre & C & New & In & K).
  exists context, ok, o, error.
  destruct ok; cbn [negb TRUE FALSE];
    [destruct (usage_error o) eqn:U; [|destruct (opt_print o) eqn:P]|].
  - destruct (after_help context o error w1 U) as (w' & post & R & G).
    exists 1, w', pre, post. eauto 10.
  - destruct (after_print context o error w1 U P) as (code & w' & post & R & G).
    exists code, w', pre, post. eauto 10.
  - destruct (after_write context o error w1 U P) as (code & w' & post & R & G).
    exists code, w', pre, post. eauto 10.
  - destruct (after_giving_up context o error w1) as (w' & post & R & G).
    exists 1, w', pre, post. eauto 10.
Qed.

Lemma runs_functional {A} (p : Prog A) w a1 w1 tr1 a2 w2 tr2 :
  runs respond p w a1 w1 tr1 → runs respond p w a2 w2 tr2 →
  a1 = a2 ∧ w1 = w2 ∧ tr1 = tr2.
Proof. unfold runs. intros -> [= ]. done. Qed.

Lemma tool_count_app p tr1 tr2 :
  count p (tr1 ++ tr2) = (count p tr1 + count p tr2)%nat.
Proof.
  unfold count. by rewrite calls_app, List.filter_app, length_app.
Qed.

Lemma count_cons p e tr :
  count p (e :: tr) = ((if p (callee e) then 1 else 0) + count p tr)%nat.
Proof. unfold count. cbn. by destruct (p (callee e)). Qed.

Lemma count_positive p tr e :
  e ∈ tr → p (callee e) = true → (1 ≤ count p tr)%nat.
Proof.
  induction tr as [|x tr IH]; intros In P.
  - by apply elem_of_nil in In.
  - rewrite count_cons. apply elem_of_cons in In as [<-|In].
    + rewrite P. lia.
    + specialize (IH In P). lia.
Qed.

(** A call that is made once has one answer. *)
Lemma called_once p tr e e' :
  (count p tr ≤ 1)%nat → e ∈ tr → e' ∈ tr →
  p (callee e) = true → p (callee e') = true → e = e'.
Proof.
  induction tr as [|x tr IH]; intros Le In In' P P'.
  - by apply elem_of_nil in In.
  - rewrite count_cons in Le.
    apply elem_of_cons in In as [->|In]; apply elem_of_cons in In' as [->|In'].
    + reflexivity.
    + pose proof (count_positive p tr e' In' P'). rewrite P in Le. lia.
    + pose proof (count_positive p tr e In P). rewrite P' in Le. lia.
    + apply IH; try done. lia.
Qed.

(** Counts the calls of a kind in a trace whose calls are known. *)
Ltac tally :=
  unfold count;
  repeat match goal with
         | E : calls _ = _ |- _ => rewrite E; clear E
         end;
  unfold prelude, fills, replaces, frees;
  repeat match goal with
         | |- context [if ?b then _ else _] => destruct b
         | |- context [match ?e with Some _ => _ | None => _ end] => destruct e
         end;
  reflexivity.

Lemma prelude_parses_once context argv pre :
  calls pre = prelude glib_before_2_35_1 context argv → count parses pre = 1%nat.
Proof. intros C. tally. Qed.

Lemma after_parsing_never_parses context ok o error code post :
  (if negb ok then gives_up context error code post
   else if usage_error o then shows_help context code post
   else if opt_print o then prints context o code post
   else writes context o code post) →
  count parses post = 0%nat.
Proof.
  destruct (negb ok); [|destruct (usage_error o); [|destruct (opt_print o)]].
  - intros (_ & C). tally.
  - intros (help & _ & C). tally.
  - intros (elements & path & file & ret & buf & _ & _ & _ & C). tally.
  - intros (data & metadata & key_file & text & len & ret & _ & _ & _ & _ & _
            & G).
    destruct (opt_local o || opt_global o).
    + destruct G as (elements & path & file & parent & _ & _ & C). tally.
    + destruct G as (_ & C). tally.
Qed.

(** A run of [main] in which the parser answered [(ok, o, error)] is the
    calls up to the parsing followed by one of the four ways on. *)
Lemma main_cases argv w code w' tr context ok o error :
  runs respond (main argv) w code w' tr →
  Called (g_option_context_parse context argv) (ok, o, error) ∈ tr →
  ∃ pre post : list Event,
    tr = pre ++ post
    ∧ calls pre = prelude glib_before_2_35_1 context argv
    ∧ Called g_option_context_new context ∈ pre
    ∧ if negb ok then gives_up context error code post
      else if usage_error o then shows_help context code post
      else if opt_print o then prints context o code post
      else writes context o code post.
Proof.
  intros R In.
  destruct (main_runs argv w)
    as (context' & ok' & o' & error' & code' & w'' & pre & post & R' & C & New
        & In' & G).
  destruct (runs_functional _ _ _ _ _ _ _ _ R R') as (-> & -> & ->).
  assert (Called (g_option_context_parse context argv) (ok, o, error)
          = Called (g_option_context_parse context' argv) (ok', o', error'))
    as E.
  { apply (called_once parses (pre ++ post)); try done.
    - rewrite tool_count_app, (prelude_parses_once _ _ _ C),
        (after_parsing_never_parses _ _ _ _ _ _ G). lia.
    - apply elem_of_app. by left. }
  pose proof (f_equal callee E) as Ec. cbn in Ec. injection Ec as ->.
  pose proof (f_equal parsed E) as Ep. cbn in Ep. injection Ep as -> -> ->.
  by exists pre, post.
Qed.

(** X14: [main] always comes back, with the exit code 0 or 1, and on every
    way through it the option context it made is freed, once. *)
Theorem main_returns argv w :
  ∃ (context : pointer) (code : gint) (w' : W) (tr : list Event),
    runs respond (main argv) w code w' tr
    ∧ (code = 0 ∨ code = 1)
    ∧ Called g_option_context_new context ∈ tr
    ∧ g_option_context_free context ∈ calls tr
    ∧ count makes_context tr = 1%nat
    ∧ count frees_context tr = 1%nat.
Proof.
  destruct (main_runs argv w)
    as (context & ok & o & error & code & w' & pre & post & R & C & New & In
        & G).
  exists context, code, w', (pre ++ post).
  split; [exact R|].
  assert (count makes_context pre = 1%nat ∧ count frees_context pre = 0%nat)
    as (Mk & Fr).
  { split; tally. }
  rewrite !tool_count_app, Mk, Fr, calls_app.
  assert ((code = 0 ∨ code = 1)
          ∧ g_option_context_free context ∈ calls post
          ∧ count makes_context post = 0%nat
          ∧ count frees_context post = 1%nat) as (Code & Free & Mk' & Fr').
  { destruct (negb ok); [|destruct (usage_error o); [|destruct (opt_print o)]].
    - destruct G as (-> & Cp).
      split; [by right|]. split; [rewrite Cp; left|]. split; tally.
    - destruct G as (help & -> & Cp).
      split; [by right|]. split; [rewrite Cp; right; left|]. split; tally.
    - destruct G as (elements & path & file & ret & buf & -> & _ & _ & Cp).
      split; [destruct ret; [by left|by right]|].
      split; [rewrite Cp; left|]. split; tally.
    - destruct G as (data & metadata & key_file & text & len & ret & _ & _
                     & -> & _ & _ & G).
      split; [destruct ret; [by left|by right]|].
      destruct (opt_local o || opt_global o).
      + destruct G as (elements & path & file & parent & _ & _ & Cp).
        split; [rewrite Cp; left|]. split; tally.
      + destruct G as (_ & Cp).
        split; [rewrite Cp; left|]. split; tally. }
  rewrite Mk', Fr'.
  split; [exact Code|]. split; [apply elem_of_app; by left|].
  split; [apply elem_of_app; by right|]. done.
Qed.

(** X15: a command line that the parser refuses, or that fails the check of
    the options, ends [main] with the exit code 1 before any file is
    touched and before any key file is made. When the parser refuses,
    nothing goes to the standard output; when the check fails, the help of
    the context is asked for and one text is printed. *)
Theorem main_rejects argv w code w' tr context ok o error :
  runs respond (main argv) w code w' tr →
  Called (g_option_context_parse context argv) (ok, o, error) ∈ tr →
  ok = FALSE ∨ usage_error o = true →
  code = 1
  ∧ count touches_files tr = 0%nat
  ∧ count makes_key_file tr = 0%nat
  ∧ count prints_text tr = (if ok then 1 else 0)%nat
  ∧ (ok = TRUE → g_option_context_get_help context ∈ calls tr).
Proof.
  intros R In Rej.
  destruct (main_cases _ _ _ _ _ _ _ _ _ R In) as (pre & post & -> & C & _ & G).
  assert (count touches_files pre = 0%nat ∧ count makes_key_file pre = 0%nat
          ∧ count prints_text pre = 0%nat) as (T & K & Pr).
  { repeat split; tally. }
  rewrite !tool_count_app, T, K, Pr, calls_app.
  destruct ok; cbn [negb TRUE FALSE] in G.
  - destruct Rej as [[=]|U]. rewrite U in G.
    destruct G as (help & -> & Cp).
    split; [done|]. split; [tally|]. split; [tally|]. split; [tally|].
    intros _. apply elem_of_app. right. rewrite Cp. left.
  - destruct G as (-> & Cp).
    split; [done|]. split; [tally|]. split; [tally|]. split; [tally|].
    intros [=].
Qed.



(** X18: an accepted command line without [--print], [--local] and
    [--global] makes the same key file, prints its text to the standard
    output and touches no file; the exit code is 0. *)
Theorem main_writes_stdout argv w code w' tr context o error :
  runs respond (main argv) w code w' tr →
  Called (g_option_context_parse context argv) (TRUE, o, error) ∈ tr →
  usage_error o = false → opt_print o = FALSE →
  opt_local o || opt_global o = false →
  code = 0
  ∧ count touches_files tr = 0%nat
  ∧ count prints_text tr = 1%nat
  ∧ ∃ (data metadata : string) (key_file : pointer) (text : string) (len : Z),
      opt_data o = Some data ∧ opt_metadata o = Some metadata
      ∧ Called g_key_file_new key_file ∈ tr
      ∧ g_key_file_set_string_list key_file "servers" "data" (string_split data)
          (length (string_split data)) ∈ calls tr
      ∧ g_key_file_set_string_list key_file "servers" "metadata"
          (string_split metadata) (length (string_split metadata)) ∈ calls tr
      ∧ Called (g_key_file_to_data key_file) (text, len) ∈ tr
      ∧ g_print text ∈ calls tr.
Proof.
  intros R In U P L.
  destruct (main_cases _ _ _ _ _ _ _ _ _ R In) as (pre & post & -> & C & _ & G).
  cbn [negb TRUE] in G. rewrite U, P in G.
  destruct G as (data & metadata & key_file & text & len & ret & D & M & ->
                 & Kf & Ser & G).
  rewrite L in G. destruct G as (-> & Cp).
  assert (count touches_files pre = 0%nat ∧ count prints_text pre = 0%nat)
    as (T & Pr).
  { split; tally. }
  rewrite !tool_count_app, T, Pr, calls_app.
  split; [done|].
  split; [clear C; tally|].
  split; [clear C; tally|].
  exists data, metadata, key_file, text, len.
  do 2 (split; [done|]).
  split; [apply elem_of_app; by right|].
  split; [apply elem_of_app; right; rewrite Cp; do 2 right; left|].
  split; [apply elem_of_app; right; rewrite Cp; do 3 right; left|].
  split; [apply elem_of_app; by right|].
  apply elem_of_app. right. rewrite Cp. do 7 right. left.
Qed.

End Runs.
Lemma main_rejects_witness :
  let o := {| opt_local := FALSE; opt_global := FALSE; opt_print := TRUE;
              opt_data := None; opt_metadata := None;
              opt_storage_backend := None; opt_storage_path := None |} in
  let tr := (run (answers (TRUE, o, None) TRUE "")
               (Config.main glib_isspace false ["julea-config"; "--print"]%string)
               ()).2 in
  usage_error o = true
  ∧ 1 = 1
  ∧ count touches_files tr = 0%nat
  ∧ count makes_key_file tr = 0%nat
  ∧ count prints_text tr = 1%nat
  ∧ (TRUE = TRUE → g_option_context_get_help (Some 1%positive) ∈ calls tr).
Proof.
  cbv zeta.
  split; [reflexivity|].
  refine (main_rejects (answers (TRUE,
               {| opt_local := FALSE; opt_global := FALSE; opt_print := TRUE;
               opt_data := None; opt_metadata := None;
               opt_storage_backend := None; opt_storage_path := None |},
               None) TRUE "") glib_isspace false
            ["julea-config"; "--print"]%string () 1 () _ (Some 1%positive) TRUE
            {| opt_local := FALSE; opt_global := FALSE; opt_print := TRUE;
               opt_data := None; opt_metadata := None;
               opt_storage_backend := None; opt_storage_path := None |}
            None _ _ (or_intror _)).
  - reflexivity.
  - vm_compute. do 2 right. left.
  - reflexivity.
Defined.



Lemma main_writes_stdout_witness :
  let o := {| opt_local := FALSE; opt_global := FALSE; opt_print := FALSE;
              opt_data := Some "host1, host2"%string;
              opt_metadata := Some "host3"%string;
              opt_storage_backend := Some "posix"%string;
              opt_storage_path := Some "/tmp/julea"%string |} in
  let tr := (run (answers (TRUE, o, None) FALSE "[servers]")
               (Config.main glib_isspace false ["julea-config"]%string) ()).2 in
  usage_error o = false
  ∧ 0 = 0
  ∧ count touches_files tr = 0%nat
  ∧ count prints_text tr = 1%nat
  ∧ ∃ (data metadata : string) (key_file : pointer) (text : string) (len : Z),
      opt_data o = Some data ∧ opt_metadata o = Some metadata
      ∧ Called g_key_file_new key_file ∈ tr
      ∧ g_key_file_set_string_list key_file "servers" "data"
          (string_split glib_isspace data)
          (length (string_split glib_isspace data)) ∈ calls tr
      ∧ g_key_file_set_string_list key_file "servers" "metadata"
          (string_split glib_isspace metadata)
          (length (string_split glib_isspace metadata)) ∈ calls tr
      ∧ Called (g_key_file_to_data key_file) (text, len) ∈ tr
      ∧ g_print text ∈ calls tr.
Proof.
  cbv zeta.
  split; [reflexivity|].
  refine (main_writes_stdout (answers (TRUE,
               {| opt_local := FALSE; opt_global := FALSE; opt_print := FALSE;
               opt_data := Some "host1, host2"%string;
               opt_metadata := Some "host3"%string;
               opt_storage_backend := Some "posix"%string;
               opt_storage_path := Some "/tmp/julea"%string |},
               None) FALSE "[servers]") glib_isspace false
            ["julea-config"]%string () 0 () _ (Some 1%positive)
            {| opt_local := FALSE; opt_global := FALSE; opt_print := FALSE;
               opt_data := Some "host1, host2"%string;
               opt_metadata := Some "host3"%string;
               opt_storage_backend := Some "posix"%string;
               opt_storage_path := Some "/tmp/julea"%string |}
            None _ _ _ _ _).
  - reflexivity.
  - vm_compute. do 2 right. left.
  - reflexivity.
  - reflexivity.
  - reflexivity.
Defined.

End ConfigProperties.
